(** * The Lyria music gateway ([index.js]): pacing, retry and the busy flag

    A shallow embedding of the Express handlers of [index.js] and of
    [generateFromPrompt].  JavaScript runs every piece of code between two
    [await]s to completion, so a handler is modelled as a machine whose
    steps are exactly those synchronous segments; the environment (the
    clock, the model client, [Math.random]) is an explicit input of each
    step, and what a segment does to the outside world is the list of
    effects the step returns.

    The four numeric settings are whole numbers in [Section Gateway];
    [AnySetting] runs the same handler with the settings as the doubles
    [Number] returns, and the two agree on the retry loop where the
    settings are whole. *)

From Stdlib Require Import ZArith NArith List Bool Lia String Ascii Sorted.
From Stdlib Require Import Floats.
Import ListNotations.
Open Scope Z_scope.

(** ** JavaScript strings

    A JavaScript string is a sequence of UTF-16 code units; [length],
    [includes] and [trim] all work on code units. *)

Module JsString.

Definition jsstring := list N.

(** A literal of the source, written as an ASCII string. *)
Definition lit (s : string) : jsstring :=
  List.map N_of_ascii (list_ascii_of_string s).

Definition length (s : jsstring) : Z := Z.of_nat (List.length s).

(** [startsWith needle s]: [needle] is a prefix of [s]. *)
Fixpoint startsWith (needle s : jsstring) : bool :=
  match needle, s with
  | [], _ => true
  | _ :: _, [] => false
  | a :: needle', b :: s' => N.eqb a b && startsWith needle' s'
  end.

(** [String.prototype.includes]: [needle] occurs somewhere in [s],
    compared code unit by code unit (so case-sensitively). *)
Fixpoint includes (s needle : jsstring) : bool :=
  startsWith needle s ||
  match s with
  | [] => false
  | _ :: s' => includes s' needle
  end.

(** The code units [trim] strips: ECMAScript's WhiteSpace (TAB, VT, FF,
    ZWNBSP and the space separators of Unicode) and LineTerminator
    (LF, CR, LS, PS).  All of them are single code units. *)
Definition isTrimmed (c : N) : bool :=
  (N.eqb c 9 || N.eqb c 10 || N.eqb c 11 || N.eqb c 12 || N.eqb c 13
   || N.eqb c 32 || N.eqb c 160 || N.eqb c 5760
   || (N.leb 8192 c && N.leb c 8202)
   || N.eqb c 8232 || N.eqb c 8233 || N.eqb c 8239 || N.eqb c 8287
   || N.eqb c 12288 || N.eqb c 65279)%N.

Fixpoint trimStart (s : jsstring) : jsstring :=
  match s with
  | [] => []
  | c :: s' => if isTrimmed c then trimStart s' else s
  end.

Definition trimEnd (s : jsstring) : jsstring := rev (trimStart (rev s)).

(** [String.prototype.trim]. *)
Definition trim (s : jsstring) : jsstring := trimEnd (trimStart s).

(** A string is truthy when it is not empty. *)
Definition truthy (s : jsstring) : bool :=
  match s with [] => false | _ :: _ => true end.

End JsString.
Import JsString.

(** ** Values a request field can hold

    [req.body.prompt] and [req.query.prompt] are whatever the client sent.
    Only two questions are asked of such a value: is it truthy, and is its
    [typeof] equal to ['string']. *)

Inductive JsVal :=
| JUndefined
| JNull
| JBool (b : bool)
| JNum (n : Z)
| JStr (s : jsstring)
| JObj.

Definition val_truthy (v : JsVal) : bool :=
  match v with
  | JUndefined | JNull => false
  | JBool b => b
  | JNum n => negb (n =? 0)
  | JStr s => truthy s
  | JObj => true
  end.

Definition typeof_string (v : JsVal) : bool :=
  match v with JStr _ => true | _ => false end.

(** [String(v)] for a value that passed the [typeof] test. *)
Definition val_string (v : JsVal) : jsstring :=
  match v with JStr s => s | _ => [] end.

(** ** The model client's response

    [response?.candidates?.[0]?.content?.parts || []]: the handler reads
    nothing but the part list of the first candidate; a missing link of the
    chain gives the empty list.  Of a part it reads [part?.audioData?.data]
    and [part?.inlineData?.data], each of which may be missing at any
    link. *)

Record Blob := { data : option jsstring }.

Record Part := { audioData : option Blob; inlineData : option Blob }.

Record Response := { parts : option (list Part) }.

(** [blob?.data], tested for truthiness: the field counts when it is
    there and is not the empty string. *)
Definition blobData (b : option Blob) : option jsstring :=
  match b with
  | Some {| data := Some d |} => if truthy d then Some d else None
  | _ => None
  end.

(** One turn of the loop over [parts] (lines 101-102): [audioData] is
    tested first, then [inlineData]. *)
Definition partAudio (p : Part) : option jsstring :=
  match blobData (audioData p) with
  | Some d => Some d
  | None => blobData (inlineData p)
  end.

(** The loop [for (const part of parts)] with its two [break]s. *)
Fixpoint scanParts (ps : list Part) : option jsstring :=
  match ps with
  | [] => None
  | p :: ps' =>
      match partAudio p with
      | Some d => Some d
      | None => scanParts ps'
      end
  end.

Definition responseParts (r : Response) : list Part :=
  match parts r with Some ps => ps | None => [] end.

(** ** Thrown values and [shouldRetry] *)

(** What the model client rejects with, or what the handler throws itself:
    an [Error] object with a name and a message, or a bare string. *)
Inductive Thrown :=
| ErrorObj (name message : jsstring)
| ThrownStr (s : jsstring).

Definition newError (message : string) : Thrown :=
  ErrorObj (lit "Error") (lit message).

(** [Error.prototype.toString]. *)
Definition errorToString (name message : jsstring) : jsstring :=
  match name, message with
  | [], _ => message
  | _, [] => name
  | _, _ => name ++ lit ": " ++ message
  end.

(** [String(err?.message || err)]. *)
Definition errText (err : Thrown) : jsstring :=
  match err with
  | ErrorObj name message =>
      if truthy message then message else errorToString name message
  | ThrownStr s => s
  end.

Definition retrySignatures : list jsstring :=
  [lit "429"; lit "RESOURCE_EXHAUSTED"; lit "rate"; lit "Quota"; lit "503"].

Definition shouldRetry (err : Thrown) : bool :=
  let s := errText err in
  includes s (lit "429") ||
  includes s (lit "RESOURCE_EXHAUSTED") ||
  includes s (lit "rate") ||
  includes s (lit "Quota") ||
  includes s (lit "503").

(** ** JavaScript numbers used for delays

    Times ([Date.now()], the configured intervals) are integers and are kept
    in [Z].  The backoff delay is computed in binary64 arithmetic, so it is
    kept as a primitive float, and so is the argument of [sleep]. *)

Module JsNumber.

(** The double nearest to an integer. *)
Definition ofZ (z : Z) : float :=
  SF2Prim (binary_normalize prec emax z 0 false).

(** [Math.pow(2, n)] for an integer [n]: the power of two itself. *)
Definition pow2 (n : Z) : float :=
  SF2Prim (binary_normalize prec emax 1 n false).

(** [Math.round]: the integer nearest to [x], a tie going towards
    positive infinity; [x] itself when it is already an integer, an
    infinity or NaN. *)
Definition Math_round (x : float) : float :=
  match Prim2SF x with
  | S754_finite s m e =>
      if 0 <=? e then x
      else
        let n := Z.shiftr (2 * (if s then Z.neg m else Z.pos m) + 2 ^ (- e))
                          (1 - e) in
        if n =? 0 then (if s then neg_zero else zero) else ofZ n
  | _ => x
  end.

End JsNumber.
Import JsNumber.

(** ** Configuration, gateway state, requests and responses *)

(** The environment variables the configuration is read from.  A numeric
    variable is [None] when it is unset or empty (the [|| default] of the
    source then applies) and holds the whole number it parses to otherwise.
    Settings that are no whole numbers are the matter of [AnySetting]
    below. *)
Record ProcessEnv := {
  VERTEX_MODEL : option jsstring;
  VERTEX_MAX_ATTEMPTS : option Z;
  VERTEX_BASE_DELAY_MS : option Z;
  VERTEX_MIN_INTERVAL_MS : option Z;
  VERTEX_HARD_COOLDOWN_MS : option Z
}.

Definition orDefault {A} (v : option A) (d : A) : A :=
  match v with Some x => x | None => d end.

(** The three module-level variables of lines 34-36. *)
Record GatewayState := {
  lastCallAtMs : Z;
  lastSuccessAtMs : Z;
  isGenerating : bool
}.

Definition initialState : GatewayState :=
  {| lastCallAtMs := 0; lastSuccessAtMs := 0; isGenerating := false |}.

Definition setGenerating (b : bool) (st : GatewayState) : GatewayState :=
  {| lastCallAtMs := lastCallAtMs st;
     lastSuccessAtMs := lastSuccessAtMs st;
     isGenerating := b |}.

Inductive Method := POST | GET.

(** The two fields a handler reads: from [req.body || {}] for POST, from
    [req.query] for GET. *)
Record Request := {
  rq_method : Method;
  rq_prompt : JsVal;
  rq_model : JsVal
}.

Inductive Body :=
| AudioBody (audio : jsstring)
| ErrorBody (error : jsstring)
| BusyBody (error : jsstring) (retryAfterMs : Z)
| FailureBody (error detail : jsstring).

Record HttpResponse := { status : Z; body : Body }.

(** What [await model.generateContent(...)] resumes with. *)
Inductive Outcome :=
| Resolved (response : Response)
| Rejected (err : Thrown).

(** What a synchronous segment may read from the outside: the clock, the
    settled promise it was waiting for, and a draw of [Math.random]. *)
Record Input := {
  now : Z;
  outcome : Outcome;
  random : float
}.

(** What a segment does to the outside. *)
Inductive Effect :=
| Dispatch (modelName text : jsstring)
| Sleep (ms : float)
| Respond (r : HttpResponse).

(** Where a request is suspended. *)
Inductive Phase :=
| Arrived (rq : Request)
| Pacing (promptText modelName : jsstring)
| AwaitModel (promptText modelName : jsstring) (attempt : Z)
| Backoff (promptText modelName : jsstring) (attempt : Z) (lastErr : Thrown)
| Done.

Definition thrown_truthy (e : Thrown) : bool :=
  match e with
  | ErrorObj _ _ => true
  | ThrownStr s => truthy s
  end.

Definition requestText (promptText : jsstring) : jsstring :=
  promptText ++ [10; 10]%N ++
  lit "Please generate approximately 15 seconds of music as high-quality audio.".

Definition respond (code : Z) (b : Body) : Effect :=
  Respond {| status := code; body := b |}.

Section Gateway.

Variable penv : ProcessEnv.

Definition DEFAULT_MODEL : jsstring :=
  match VERTEX_MODEL penv with
  | Some s => if truthy s then s else lit "lyria-002"
  | None => lit "lyria-002"
  end.
Definition MAX_ATTEMPTS : Z := Z.max 1 (orDefault (VERTEX_MAX_ATTEMPTS penv) 1).
Definition BASE_DELAY_MS : Z := Z.max 200 (orDefault (VERTEX_BASE_DELAY_MS penv) 1200).
Definition MIN_INTERVAL_MS : Z := Z.max 0 (orDefault (VERTEX_MIN_INTERVAL_MS penv) 2000).
Definition HARD_COOLDOWN_MS : Z := Z.max 0 (orDefault (VERTEX_HARD_COOLDOWN_MS penv) 7000).

(** The jitter factor [0.75 + Math.random() * 0.5]. *)
Definition jitter (r : float) : float := (0.75 + r * 0.5)%float.

(** Line 114. *)
Definition backoffDelay (attempt : Z) (r : float) : float :=
  Math_round (ofZ BASE_DELAY_MS * pow2 (attempt - 1) * jitter r)%float.

Definition Result : Type := GatewayState * Phase * list Effect.

(** The handler's [return res.json({ audioData })] (lines 145-146). *)
Definition handlerReturn (st : GatewayState) (audio : jsstring) : Result :=
  (setGenerating false st, Done, [respond 200 (AudioBody audio)]).

(** The handler's [catch] (lines 147-151). *)
Definition handlerCatch (st : GatewayState) (err : Thrown) : Result :=
  (setGenerating false st, Done,
   [respond 500 (FailureBody (lit "Failed to generate music") (errText err))]).

(** The head of the [for] loop: either the next call of the model client,
    or the [throw] after the loop (line 119). *)
Definition enterAttempt (st : GatewayState) (promptText modelName : jsstring)
    (attempt : Z) (lastErr : option Thrown) : Result :=
  if attempt <=? MAX_ATTEMPTS then
    (st, AwaitModel promptText modelName attempt,
     [Dispatch modelName (requestText promptText)])
  else
    handlerCatch st
      match lastErr with
      | Some e => if thrown_truthy e then e else newError "UNKNOWN_ERROR"
      | None => newError "UNKNOWN_ERROR"
      end.

(** The [catch] of the loop body (lines 109-117). *)
Definition catchAttempt (st : GatewayState) (promptText modelName : jsstring)
    (attempt : Z) (r : float) (err : Thrown) : Result :=
  if negb (shouldRetry err) || (attempt =? MAX_ATTEMPTS) then
    handlerCatch st err
  else
    (st, Backoff promptText modelName attempt err,
     [Sleep (backoffDelay attempt r)]).

(** The first segment of a handler: from the arrival of the request to the
    first [await] (or to the response, when there is none). *)
Definition arrive (st : GatewayState) (t : Z) (rq : Request) : Result :=
  if isGenerating st then
    let cooldownLeft := Z.max 0 (HARD_COOLDOWN_MS - (t - lastSuccessAtMs st)) in
    (st, Done,
     [respond 429 (BusyBody (lit "Server busy, try again") cooldownLeft)])
  else if negb (val_truthy (rq_prompt rq)) || negb (typeof_string (rq_prompt rq)) then
    (st, Done, [respond 400 (ErrorBody (lit "Invalid prompt"))])
  else
    let promptText := trim (val_string (rq_prompt rq)) in
    if JsString.length promptText =? 0 then
      (st, Done, [respond 400 (ErrorBody (lit "Prompt cannot be empty"))])
    else if JsString.length promptText >? 500 then
      (st, Done,
       [respond 400 (ErrorBody (lit "Prompt is too long (max 500 chars)"))])
    else
      let modelName :=
        if typeof_string (rq_model rq) && truthy (trim (val_string (rq_model rq)))
        then trim (val_string (rq_model rq))
        else DEFAULT_MODEL in
      let st1 := setGenerating true st in
      let since := t - lastCallAtMs st1 in
      if since <? MIN_INTERVAL_MS then
        (st1, Pacing promptText modelName, [Sleep (ofZ (MIN_INTERVAL_MS - since))])
      else
        enterAttempt st1 promptText modelName 1 None.

(** The segment that runs when the awaited call of the model client has
    settled (lines 96-117). *)
Definition settle (st : GatewayState) (promptText modelName : jsstring)
    (attempt : Z) (w : Input) : Result :=
  match outcome w with
  | Resolved response =>
      let st1 := {| lastCallAtMs := now w;
                    lastSuccessAtMs := now w;
                    isGenerating := isGenerating st |} in
      match scanParts (responseParts response) with
      | Some audioBase64 => handlerReturn st1 audioBase64
      | None =>
          catchAttempt st1 promptText modelName attempt (random w)
            (newError "NO_AUDIO_IN_RESPONSE")
      end
  | Rejected err =>
      catchAttempt st promptText modelName attempt (random w) err
  end.

(** One synchronous segment of a request. *)
Definition step (st : GatewayState) (ph : Phase) (w : Input) : Result :=
  match ph with
  | Arrived rq => arrive st (now w) rq
  | Pacing promptText modelName =>
      enterAttempt st promptText modelName 1 None
  | AwaitModel promptText modelName attempt =>
      settle st promptText modelName attempt w
  | Backoff promptText modelName attempt lastErr =>
      enterAttempt st promptText modelName (attempt + 1) (Some lastErr)
  | Done => (st, Done, [])
  end.

(** A request run alone: one segment per input, until it is answered. *)
Fixpoint run (st : GatewayState) (ph : Phase) (ws : list Input)
    : GatewayState * Phase * list (Z * Effect) :=
  match ph, ws with
  | Done, _ | _, [] => (st, ph, [])
  | _, w :: ws' =>
      let '(st1, ph1, effs) := step st ph w in
      let '(st2, ph2, trace) := run st1 ph1 ws' in
      (st2, ph2, List.map (fun e => (now w, e)) effs ++ trace)
  end.

End Gateway.

(** ** The server: one gateway state shared by all requests

    Node delivers one event at a time.  The arrival of a request runs the
    first segment of its handler at once; a timer or a settled promise
    wakes the request it belongs to.  Every segment reads and writes the
    same three variables. *)

Inductive Event :=
| Arrival (rq : Request) (t : Z)
| Wake (id : nat) (w : Input).

Record Server := {
  gateway : GatewayState;
  requests : list Phase;
  sent : list (nat * Effect)
}.

Definition bootServer : Server :=
  {| gateway := initialState; requests := []; sent := [] |}.

Fixpoint setPhase (id : nat) (ph : Phase) (phs : list Phase) : list Phase :=
  match id, phs with
  | _, [] => []
  | O, _ :: phs' => ph :: phs'
  | S id', p :: phs' => p :: setPhase id' ph phs'
  end.

Definition handle (penv : ProcessEnv) (sv : Server) (ev : Event) : Server :=
  match ev with
  | Arrival rq t =>
      let '(st, ph, effs) := arrive penv (gateway sv) t rq in
      let id := List.length (requests sv) in
      {| gateway := st;
         requests := requests sv ++ [ph];
         sent := sent sv ++ List.map (pair id) effs |}
  | Wake id w =>
      match nth_error (requests sv) id with
      | Some ph =>
          let '(st, ph', effs) := step penv (gateway sv) ph w in
          {| gateway := st;
             requests := setPhase id ph' (requests sv);
             sent := sent sv ++ List.map (pair id) effs |}
      | None => sv
      end
  end.

Definition serve (penv : ProcessEnv) (sv : Server) (evs : list Event) : Server :=
  fold_left (handle penv) evs sv.

(** A request is in flight from the moment its first segment suspends
    until it is answered. *)
Definition inFlight (ph : Phase) : bool :=
  match ph with Done => false | _ => true end.

Definition countInFlight (phs : list Phase) : nat :=
  List.length (filter inFlight phs).

(** ** Vocabulary of the statements *)

(** [needle] occurs in [s]. *)
Definition occursIn (needle s : jsstring) : Prop :=
  exists pre post, s = pre ++ needle ++ post.

(** [s] carries one of the five retry signatures. *)
Definition hasRetrySignature (s : jsstring) : Prop :=
  exists sig, In sig retrySignatures /\ occursIn sig s.

(** The field [data] of a blob is there and holds the non-empty string [d]. *)
Definition holdsData (b : option Blob) (d : jsstring) : Prop :=
  exists blob, b = Some blob /\ data blob = Some d /\ d <> [].

Definition holdsNothing (b : option Blob) : Prop :=
  forall d, ~ holdsData b d.

(** The part gives [d]: its [audioData.data], or else its [inlineData.data]. *)
Definition partGives (p : Part) (d : jsstring) : Prop :=
  holdsData (audioData p) d \/
  (holdsNothing (audioData p) /\ holdsData (inlineData p) d).

Definition partGivesNothing (p : Part) : Prop :=
  holdsNothing (audioData p) /\ holdsNothing (inlineData p).

Definition isDispatch (e : Effect) : bool :=
  match e with Dispatch _ _ => true | _ => false end.

(** The times at which the model client was called, in a timed trace. *)
Definition dispatchTimes (trace : list (Z * Effect)) : list Z :=
  List.map fst (filter (fun te => isDispatch (snd te)) trace).

(** The clock never goes back from one segment to the next. *)
Definition clockMonotone (ws : list Input) : Prop :=
  StronglySorted Z.le (List.map now ws).

(** The prompt is a string whose trimmed length is between 1 and 500. *)
Definition acceptablePrompt (rq : Request) : Prop :=
  exists s, rq_prompt rq = JStr s /\
            1 <= JsString.length (trim s) <= 500.

(** The model name the handler settles on (line 141). *)
Definition chosenModel (penv : ProcessEnv) (rq : Request) : jsstring :=
  if typeof_string (rq_model rq) && truthy (trim (val_string (rq_model rq)))
  then trim (val_string (rq_model rq))
  else DEFAULT_MODEL penv.

(** The number of segments a request still has before it is answered, at
    most. *)
Definition segmentsLeft (penv : ProcessEnv) (ph : Phase) : nat :=
  match ph with
  | Done => 0
  | Backoff _ _ attempt _ => 2 * Z.to_nat (MAX_ATTEMPTS penv - attempt) + 1
  | AwaitModel _ _ attempt => 2 * Z.to_nat (MAX_ATTEMPTS penv - attempt) + 2
  | Pacing _ _ => 2 * Z.to_nat (MAX_ATTEMPTS penv) + 1
  | Arrived _ => 2 * Z.to_nat (MAX_ATTEMPTS penv) + 2
  end.

(** Parts as the model client sends them: audio under [audioData], under
    [inlineData], or under both. *)
Definition audioPart (d : jsstring) : Part :=
  {| audioData := Some {| data := Some d |}; inlineData := None |}.

Definition inlinePart (d : jsstring) : Part :=
  {| audioData := None; inlineData := Some {| data := Some d |} |}.

Definition bothPart (a b : jsstring) : Part :=
  {| audioData := Some {| data := Some a |};
     inlineData := Some {| data := Some b |} |}.

(** The response of a failed generation (line 150). *)
Definition failure (err : Thrown) : Effect :=
  respond 500 (FailureBody (lit "Failed to generate music") (errText err)).

(** The response of the busy gate (lines 126-127). *)
Definition busy (penv : ProcessEnv) (st : GatewayState) (t : Z) : Effect :=
  respond 429
    (BusyBody (lit "Server busy, try again")
       (Z.max 0 (HARD_COOLDOWN_MS penv - (t - lastSuccessAtMs st)))).

(** An environment with every variable unset, and one that allows three
    attempts. *)
Definition defaultEnv : ProcessEnv :=
  {| VERTEX_MODEL := None; VERTEX_MAX_ATTEMPTS := None;
     VERTEX_BASE_DELAY_MS := None; VERTEX_MIN_INTERVAL_MS := None;
     VERTEX_HARD_COOLDOWN_MS := None |}.

Definition threeAttemptsEnv : ProcessEnv :=
  {| VERTEX_MODEL := None; VERTEX_MAX_ATTEMPTS := Some 3;
     VERTEX_BASE_DELAY_MS := None; VERTEX_MIN_INTERVAL_MS := None;
     VERTEX_HARD_COOLDOWN_MS := None |}.

Definition postPrompt (s : string) : Request :=
  {| rq_method := POST; rq_prompt := JStr (lit s); rq_model := JUndefined |}.

Definition getPrompt (s : string) : Request :=
  {| rq_method := GET; rq_prompt := JStr (lit s); rq_model := JUndefined |}.

Definition audioResponse (d : string) : Response :=
  {| parts := Some [inlinePart (lit d)] |}.

Definition rejectedAt (t : Z) (err : Thrown) : Input :=
  {| now := t; outcome := Rejected err; random := 0.5%float |}.

Definition resolvedAt (t : Z) (r : Response) : Input :=
  {| now := t; outcome := Resolved r; random := 0.5%float |}.

(** The input of a segment that reads nothing but the clock: the arrival
    of a request, or a timer firing at [t]. *)
Definition clockAt (t : Z) : Input :=
  {| now := t; outcome := Rejected (ThrownStr []); random := 0%float |}.

Definition isArrived (ph : Phase) : bool :=
  match ph with Arrived _ => true | _ => false end.

(** The single-flight invariant of the server: the flag is up exactly when
    one request is in flight, and there is never more than one. *)
Definition singleFlight (sv : Server) : Prop :=
  countInFlight (requests sv) =
    (if isGenerating (gateway sv) then 1%nat else 0%nat) /\
  Forall (fun ph => isArrived ph = false) (requests sv).

(** The timer of the pacing wait does not fire early: the segment after
    the first one runs no sooner than the requested wait after it. *)
Definition pacingHonoured (penv : ProcessEnv) (st : GatewayState)
    (ws : list Input) : Prop :=
  match ws with
  | w1 :: w2 :: _ =>
      now w1 + (MIN_INTERVAL_MS penv - (now w1 - lastCallAtMs st)) <= now w2
  | _ => True
  end.

(** ** Binary64 vocabulary

    The specification of binary64 arithmetic that the primitive floats
    obey is written over [spec_float]; the statements about rounding are
    made there. *)

Module Binary64.

(** The exponent of the doubles that have [z] binary digits before the
    point. *)
Definition fexp64 (z : Z) : Z := fexp prec emax z.

(** The last step of [binary_round_aux]: renormalising the rounded
    mantissa. *)
Definition finish (m e : Z) : spec_float :=
  let '(mrs, e') := shr_fexp prec emax m e loc_Exact in
  match shr_m mrs with
  | Z0 => S754_zero false
  | Zpos p =>
      if e' <=? emax - prec then S754_finite false p e'
      else S754_infinity false
  | Zneg _ => S754_nan
  end.

(** The doubles 0.75, 0.5, 1.25 and 1. *)
Definition c075 : spec_float := S754_finite false 6755399441055744 (-53).
Definition c05 : spec_float := S754_finite false 4503599627370496 (-53).
Definition c125 : spec_float := S754_finite false 5629499534213120 (-52).
Definition c1 : spec_float := S754_finite false 4503599627370496 (-52).

(** A zero, or a positive double below one half. *)
Definition belowHalf (y : spec_float) : Prop :=
  (exists s, y = S754_zero s) \/
  (exists my ey, y = S754_finite false my ey /\
                 -1074 <= ey <= -54 /\ Z.pos my < 2 ^ 53).

End Binary64.
Import Binary64.

(** A draw of [Math.random] just below 1: [1 - 2^-52]. *)
Definition largestDraw : float := 0x1.ffffffffffffep-1%float.

(** ** Vocabulary of the further properties *)

(** The responses sent in a timed trace, in order. *)
Definition responsesOf (trace : list (Z * Effect)) : list HttpResponse :=
  flat_map (fun te => match snd te with Respond r => [r] | _ => [] end) trace.

(** The calls of the model client in a timed trace: model name and text. *)
Definition payloadsOf (trace : list (Z * Effect)) : list (jsstring * jsstring) :=
  flat_map (fun te => match snd te with
                      | Dispatch modelName text => [(modelName, text)]
                      | _ => []
                      end) trace.

(** A response whose status and body go together as in the handlers. *)
Definition wellFormed (r : HttpResponse) : Prop :=
  match body r with
  | AudioBody audio => status r = 200 /\ audio <> []
  | ErrorBody error =>
      status r = 400 /\
      In error [lit "Invalid prompt"; lit "Prompt cannot be empty";
                lit "Prompt is too long (max 500 chars)"]
  | BusyBody error _ =>
      status r = 429 /\ error = lit "Server busy, try again"
  | FailureBody error _ =>
      status r = 500 /\ error = lit "Failed to generate music"
  end.

(** The attempt number of a suspended request is one the loop can reach. *)
Definition attemptInRange (penv : ProcessEnv) (ph : Phase) : Prop :=
  match ph with
  | AwaitModel _ _ attempt => 1 <= attempt <= MAX_ATTEMPTS penv
  | Backoff _ _ attempt _ => 1 <= attempt < MAX_ATTEMPTS penv
  | _ => True
  end.

(** The calls of the model client a request can still make, at most. *)
Definition callsLeft (penv : ProcessEnv) (ph : Phase) : nat :=
  match ph with
  | Arrived _ | Pacing _ _ => Z.to_nat (MAX_ATTEMPTS penv)
  | AwaitModel _ _ attempt | Backoff _ _ attempt _ =>
      Z.to_nat (MAX_ATTEMPTS penv - attempt)
  | Done => 0
  end.

(** The payload a suspended request was accepted with. *)
Definition payloadOf (ph : Phase) : option (jsstring * jsstring) :=
  match ph with
  | Pacing promptText modelName
  | AwaitModel promptText modelName _
  | Backoff promptText modelName _ _ => Some (modelName, requestText promptText)
  | _ => None
  end.

(** The inputs of failed attempts that are retried: each rejection is
    followed by the firing of the backoff timer. *)
Definition rounds (rs : list (Input * Input)) : list Input :=
  flat_map (fun r => [fst r; snd r]) rs.

(** The call settles with an error that [shouldRetry] accepts. *)
Definition retryable (w : Input) : Prop :=
  exists err, outcome w = Rejected err /\ shouldRetry err = true.

(** The string neither starts nor ends with a code unit that [trim]
    strips. *)
Definition tight (s : jsstring) : Prop :=
  (forall c rest, s = c :: rest -> isTrimmed c = false) /\
  (forall init c, s = init ++ [c] -> isTrimmed c = false).

(** What the retried attempts leave in the trace: after each rejection
    the backoff sleep, then the next call of the model client. *)
Fixpoint retryTrace (penv : ProcessEnv) (promptText modelName : jsstring)
    (attempt : Z) (rs : list (Input * Input)) : list (Z * Effect) :=
  match rs with
  | [] => []
  | r :: rs' =>
      (now (fst r), Sleep (backoffDelay penv attempt (random (fst r)))) ::
      (now (snd r), Dispatch modelName (requestText promptText)) ::
      retryTrace penv promptText modelName (attempt + 1) rs'
  end.

(** ** The gateway under any setting of the variables

    [Number(process.env.X || d)] is a double: a whole number for the
    settings [Section Gateway] covers, but also a fraction, an infinity, or
    NaN when the variable holds no number.  This module reads lines 23-28
    as they are written, with the four limits as doubles, and runs the same
    handler over them: the comparisons and the subtractions that involve a
    limit are those of binary64.

    The clock, the two timestamps and the attempt counter stay in [Z]: they
    are whole numbers below 2^53, which a double holds exactly, and so are
    their differences; [ofZ] takes them to the double they are where they
    meet a limit. *)

Module AnySetting.

(** A numeric variable is [None] when it is unset or empty, and the double
    [Number] returns for its text otherwise. *)
Record ProcessEnv := {
  VERTEX_MODEL : option jsstring;
  VERTEX_MAX_ATTEMPTS : option float;
  VERTEX_BASE_DELAY_MS : option float;
  VERTEX_MIN_INTERVAL_MS : option float;
  VERTEX_HARD_COOLDOWN_MS : option float
}.

(** [Math.max] of two numbers: NaN when either is, and [+0] above [-0]. *)
Definition Math_max (a b : float) : float :=
  if is_nan a || is_nan b then nan
  else if (a <? b)%float then b
  else if (b <? a)%float then a
  else if get_sign a then b else a.

(** The object handed to [res.json].  [retryAfterMs] is the number the
    handler computed; [JSON.stringify] writes NaN and the infinities as
    [null]. *)
Inductive Body :=
| AudioBody (audio : jsstring)
| ErrorBody (error : jsstring)
| BusyBody (error : jsstring) (retryAfterMs : float)
| FailureBody (error detail : jsstring).

Record HttpResponse := { status : Z; body : Body }.

Inductive Effect :=
| Dispatch (modelName text : jsstring)
| Sleep (ms : float)
| Respond (r : HttpResponse).

Definition respond (code : Z) (b : Body) : Effect :=
  Respond {| status := code; body := b |}.

(** The response of a failed generation (line 150). *)
Definition failure (err : Thrown) : Effect :=
  respond 500 (FailureBody (lit "Failed to generate music") (errText err)).

Section Gateway.

Variable penv : ProcessEnv.

Definition DEFAULT_MODEL : jsstring :=
  match VERTEX_MODEL penv with
  | Some s => if truthy s then s else lit "lyria-002"
  | None => lit "lyria-002"
  end.
Definition MAX_ATTEMPTS : float :=
  Math_max 1 (orDefault (VERTEX_MAX_ATTEMPTS penv) 1%float).
Definition BASE_DELAY_MS : float :=
  Math_max 200 (orDefault (VERTEX_BASE_DELAY_MS penv) 1200%float).
Definition MIN_INTERVAL_MS : float :=
  Math_max 0 (orDefault (VERTEX_MIN_INTERVAL_MS penv) 2000%float).
Definition HARD_COOLDOWN_MS : float :=
  Math_max 0 (orDefault (VERTEX_HARD_COOLDOWN_MS penv) 7000%float).

(** Line 114. *)
Definition backoffDelay (attempt : Z) (r : float) : float :=
  Math_round (BASE_DELAY_MS * pow2 (attempt - 1) * (0.75 + r * 0.5))%float.

Definition Result : Type := GatewayState * Phase * list Effect.

(** The handler's [return res.json({ audioData })] (lines 145-146). *)
Definition handlerReturn (st : GatewayState) (audio : jsstring) : Result :=
  (setGenerating false st, Done, [respond 200 (AudioBody audio)]).

(** The handler's [catch] (lines 147-151). *)
Definition handlerCatch (st : GatewayState) (err : Thrown) : Result :=
  (setGenerating false st, Done, [failure err]).

(** The head of the [for] loop, [attempt <= MAX_ATTEMPTS]: either the next
    call of the model client, or the [throw] after the loop (line 119). *)
Definition enterAttempt (st : GatewayState) (promptText modelName : jsstring)
    (attempt : Z) (lastErr : option Thrown) : Result :=
  if (ofZ attempt <=? MAX_ATTEMPTS)%float then
    (st, AwaitModel promptText modelName attempt,
     [Dispatch modelName (requestText promptText)])
  else
    handlerCatch st
      match lastErr with
      | Some e => if thrown_truthy e then e else newError "UNKNOWN_ERROR"
      | None => newError "UNKNOWN_ERROR"
      end.

(** The [catch] of the loop body (lines 109-117), with its test
    [attempt === MAX_ATTEMPTS]. *)
Definition catchAttempt (st : GatewayState) (promptText modelName : jsstring)
    (attempt : Z) (r : float) (err : Thrown) : Result :=
  if negb (shouldRetry err) || (ofZ attempt =? MAX_ATTEMPTS)%float then
    handlerCatch st err
  else
    (st, Backoff promptText modelName attempt err,
     [Sleep (backoffDelay attempt r)]).

(** The first segment of a handler (lines 123-143 and 83-89). *)
Definition arrive (st : GatewayState) (t : Z) (rq : Request) : Result :=
  if isGenerating st then
    let cooldownLeft :=
      Math_max 0 (HARD_COOLDOWN_MS - ofZ (t - lastSuccessAtMs st))%float in
    (st, Done,
     [respond 429 (BusyBody (lit "Server busy, try again") cooldownLeft)])
  else if negb (val_truthy (rq_prompt rq)) || negb (typeof_string (rq_prompt rq)) then
    (st, Done, [respond 400 (ErrorBody (lit "Invalid prompt"))])
  else
    let promptText := trim (val_string (rq_prompt rq)) in
    if JsString.length promptText =? 0 then
      (st, Done, [respond 400 (ErrorBody (lit "Prompt cannot be empty"))])
    else if JsString.length promptText >? 500 then
      (st, Done,
       [respond 400 (ErrorBody (lit "Prompt is too long (max 500 chars)"))])
    else
      let modelName :=
        if typeof_string (rq_model rq) && truthy (trim (val_string (rq_model rq)))
        then trim (val_string (rq_model rq))
        else DEFAULT_MODEL in
      let st1 := setGenerating true st in
      let since := ofZ (t - lastCallAtMs st1) in
      if (since <? MIN_INTERVAL_MS)%float then
        (st1, Pacing promptText modelName, [Sleep (MIN_INTERVAL_MS - since)%float])
      else
        enterAttempt st1 promptText modelName 1 None.

(** The segment that runs when the awaited call of the model client has
    settled (lines 96-117). *)
Definition settle (st : GatewayState) (promptText modelName : jsstring)
    (attempt : Z) (w : Input) : Result :=
  match outcome w with
  | Resolved response =>
      let st1 := {| lastCallAtMs := now w;
                    lastSuccessAtMs := now w;
                    isGenerating := isGenerating st |} in
      match scanParts (responseParts response) with
      | Some audioBase64 => handlerReturn st1 audioBase64
      | None =>
          catchAttempt st1 promptText modelName attempt (random w)
            (newError "NO_AUDIO_IN_RESPONSE")
      end
  | Rejected err =>
      catchAttempt st promptText modelName attempt (random w) err
  end.

(** One synchronous segment of a request. *)
Definition step (st : GatewayState) (ph : Phase) (w : Input) : Result :=
  match ph with
  | Arrived rq => arrive st (now w) rq
  | Pacing promptText modelName =>
      enterAttempt st promptText modelName 1 None
  | AwaitModel promptText modelName attempt =>
      settle st promptText modelName attempt w
  | Backoff promptText modelName attempt lastErr =>
      enterAttempt st promptText modelName (attempt + 1) (Some lastErr)
  | Done => (st, Done, [])
  end.

End Gateway.

(** The variables set as given, the others unset. *)
Definition setting (maxAttempts hardCooldown : option float) : ProcessEnv :=
  {| VERTEX_MODEL := None; VERTEX_MAX_ATTEMPTS := maxAttempts;
     VERTEX_BASE_DELAY_MS := None; VERTEX_MIN_INTERVAL_MS := None;
     VERTEX_HARD_COOLDOWN_MS := hardCooldown |}.

End AnySetting.

(** The stringified message of a thrown value, case by case: the message
    of an error, the name of an error whose message is empty, a thrown
    string itself. *)
Definition stringified (err : Thrown) : jsstring :=
  match err with
  | ErrorObj name [] => name
  | ErrorObj _ message => message
  | ThrownStr s => s
  end.

(** What a variable that holds no number does to its limit. *)
Definition unparsed (v : option float) : bool :=
  match v with Some x => is_nan x | None => false end.

(** A double that is a number and not an infinity. *)
Definition finiteNumber (x : spec_float) : Prop :=
  match x with
  | S754_zero _ | S754_finite _ _ _ => True
  | _ => False
  end.

(** The effects of [Section Gateway], read as effects of [AnySetting]. *)
Definition asDoubles (e : Effect) : AnySetting.Effect :=
  match e with
  | Dispatch modelName text => AnySetting.Dispatch modelName text
  | Sleep ms => AnySetting.Sleep ms
  | Respond r =>
      AnySetting.respond (status r)
        match body r with
        | AudioBody audio => AnySetting.AudioBody audio
        | ErrorBody error => AnySetting.ErrorBody error
        | BusyBody error ms => AnySetting.BusyBody error (ofZ ms)
        | FailureBody error detail => AnySetting.FailureBody error detail
        end
  end.

(** The setting [env] holds the whole numbers of [penv] where the retry
    loop reads them. *)
Definition wholeSetting (penv : ProcessEnv) (env : AnySetting.ProcessEnv)
    : Prop :=
  AnySetting.MAX_ATTEMPTS env = ofZ (MAX_ATTEMPTS penv) /\
  MAX_ATTEMPTS penv < 2 ^ 53 /\
  AnySetting.BASE_DELAY_MS env = ofZ (BASE_DELAY_MS penv).

(** A request that arrives while a generation is in flight. *)
Definition busyState : GatewayState :=
  {| lastCallAtMs := 1700000000000; lastSuccessAtMs := 1700000000000;
     isGenerating := true |}.

Definition busyAnswer (retryAfterMs : float) : AnySetting.Effect :=
  AnySetting.respond 429
    (AnySetting.BusyBody (lit "Server busy, try again") retryAfterMs).

(** The answer to a failed generation: status 500 and the error's text. *)
Definition failed (detail : jsstring) : AnySetting.Effect :=
  AnySetting.respond 500
    (AnySetting.FailureBody (lit "Failed to generate music") detail).

(** * Properties *)

(** ** Strings *)

Lemma startsWith_prefix (needle s : jsstring) :
  startsWith needle s = true <-> exists post, s = needle ++ post.
Proof.
  revert s; induction needle as [|a needle IH]; intros s.
  - split; [intros _; now exists s | reflexivity].
  - destruct s as [|b s]; simpl.
    + split; [discriminate | intros [post H]; discriminate].
    + rewrite andb_true_iff, N.eqb_eq, IH. split.
      * intros [-> [post ->]]. now exists post.
      * intros [post H]. injection H as -> ->. split; eauto.
Qed.

Lemma includes_occursIn (s needle : jsstring) :
  includes s needle = true <-> occursIn needle s.
Proof.
  unfold occursIn. induction s as [|c s IH]; simpl.
  - rewrite orb_false_r, startsWith_prefix. split.
    + intros [post H]. now exists [], post.
    + intros [[|c pre] [post H]]; simpl in H; [now exists post | discriminate].
  - rewrite orb_true_iff, startsWith_prefix, IH. split.
    + intros [[post H] | [pre [post H]]].
      * now exists [], post.
      * exists (c :: pre), post. simpl. now f_equal.
    + intros [[|c' pre] [post H]]; simpl in H.
      * left. now exists post.
      * right. injection H as _ H. now exists pre, post.
Qed.

Lemma shouldRetry_signature (err : Thrown) :
  shouldRetry err = true <-> hasRetrySignature (errText err).
Proof.
  unfold shouldRetry, hasRetrySignature, retrySignatures.
  rewrite !orb_true_iff, !includes_occursIn. split.
  - intros [[[[H | H] | H] | H] | H]; eexists; (split; [| exact H]);
      cbn [In]; tauto.
  - intros [sig [Hin H]]. cbn [In] in Hin.
    destruct Hin as [<- | [<- | [<- | [<- | [<- | []]]]]]; tauto.
Qed.

Lemma trimStart_head (s : jsstring) :
  trimStart s = [] \/
  exists c t, trimStart s = c :: t /\ isTrimmed c = false.
Proof.
  induction s as [|c s IH]; simpl; [now left |].
  destruct (isTrimmed c) eqn:Hc; [exact IH |].
  right. now exists c, s.
Qed.

Lemma trimStart_nil (s : jsstring) :
  trimStart s = [] <-> forallb isTrimmed s = true.
Proof.
  induction s as [|c s IH]; simpl; [tauto |].
  destruct (isTrimmed c); simpl; [exact IH |].
  split; discriminate.
Qed.

(** Trimming leaves nothing exactly when every code unit is white space
    or a line terminator. *)
Lemma trim_nil (s : jsstring) :
  trim s = [] <-> forallb isTrimmed s = true.
Proof.
  unfold trim, trimEnd. split.
  - intros H. apply trimStart_nil.
    apply (f_equal (@rev N)) in H. rewrite rev_involutive in H. simpl in H.
    apply trimStart_nil in H. rewrite forallb_forall in H.
    destruct (trimStart_head s) as [E | [c [t [E Hc]]]]; [exact E |].
    rewrite E in H. specialize (H c).
    rewrite <- in_rev in H. rewrite H in Hc; [discriminate | now left].
  - intros H. apply trimStart_nil in H. now rewrite H.
Qed.

Lemma length_zero (s : jsstring) : JsString.length s = 0 <-> s = [].
Proof.
  unfold JsString.length. destruct s; simpl; split;
    try reflexivity; discriminate.
Qed.

Example includes_is_case_sensitive :
  includes (lit "Quota exceeded for model") (lit "Quota") = true /\
  includes (lit "quota exceeded for model") (lit "Quota") = false.
Proof. split; reflexivity. Qed.

Example trim_strips_both_ends :
  trim ([9; 32]%N ++ lit "calm  piano" ++ [160; 10; 12288]%N) = lit "calm  piano".
Proof. reflexivity. Qed.

Example Math_round_ties_go_up :
  Math_round 2.5 = 3%float /\ Math_round (-2.5) = (-2)%float /\
  Math_round 1499.5 = 1500%float /\ Math_round 0.25 = 0%float /\
  Math_round infinity = infinity.
Proof. repeat split. Qed.

(** ** Audio extraction *)

Lemma blobData_holds (b : option Blob) (d : jsstring) :
  blobData b = Some d <-> holdsData b d.
Proof.
  unfold holdsData. split.
  - destruct b as [[[x|]]|]; simpl; try discriminate.
    destruct x; simpl; [discriminate |].
    intros [= <-]. eexists; repeat split. discriminate.
  - intros [[x] [-> [H Hd]]]. simpl in H. subst x.
    destruct d; [contradiction | reflexivity].
Qed.

Lemma blobData_nothing (b : option Blob) :
  blobData b = None <-> holdsNothing b.
Proof.
  unfold holdsNothing. split.
  - intros H d Hd. apply blobData_holds in Hd. congruence.
  - intros H. destruct (blobData b) as [d|] eqn:E; [| reflexivity].
    apply blobData_holds in E. now apply H in E.
Qed.

Lemma partAudio_gives (p : Part) (d : jsstring) :
  partAudio p = Some d <-> partGives p d.
Proof.
  unfold partAudio, partGives.
  rewrite <- !blobData_holds, <- blobData_nothing.
  destruct (blobData (audioData p)) as [a|]; split.
  - intros [= <-]. now left.
  - intros [H | [H _]]; [exact H | discriminate].
  - intros H. now right.
  - intros [H | [_ H]]; [discriminate | exact H].
Qed.

Lemma partAudio_nothing (p : Part) :
  partAudio p = None <-> partGivesNothing p.
Proof.
  unfold partAudio, partGivesNothing. rewrite <- !blobData_nothing.
  destruct (blobData (audioData p)); split;
    try discriminate; try tauto; intros [H _]; discriminate.
Qed.

Lemma scanParts_nothing (ps : list Part) :
  scanParts ps = None <-> Forall partGivesNothing ps.
Proof.
  induction ps as [|p ps IH]; simpl.
  - split; [constructor | reflexivity].
  - destruct (partAudio p) as [d|] eqn:E.
    + split; [discriminate |]. intros H. inversion H as [|? ? Hp _]; subst.
      apply partAudio_nothing in Hp. congruence.
    + rewrite IH. apply partAudio_nothing in E. split.
      * now constructor.
      * intros H. now inversion H.
Qed.

Lemma scanParts_first (ps : list Part) (d : jsstring) :
  scanParts ps = Some d <->
  exists pre p post,
    ps = pre ++ p :: post /\ Forall partGivesNothing pre /\ partGives p d.
Proof.
  induction ps as [|p ps IH]; simpl.
  - split; [discriminate |]. intros [[|q pre] [p [post [H _]]]]; discriminate.
  - destruct (partAudio p) as [a|] eqn:E; split.
    + intros [= <-]. exists [], p, ps. repeat split; [constructor |].
      now apply partAudio_gives.
    + intros [[|q pre] [p' [post [H [Hpre Hp]]]]]; simpl in H; injection H as <- ->.
      * apply partAudio_gives in Hp. congruence.
      * inversion Hpre as [|? ? Hq _]; subst.
        apply partAudio_nothing in Hq. congruence.
    + intros H. apply IH in H. destruct H as [pre [p' [post [-> [Hpre Hp]]]]].
      exists (p :: pre), p', post. repeat split; [| exact Hp].
      constructor; [now apply partAudio_nothing | exact Hpre].
    + intros [[|q pre] [p' [post [H [Hpre Hp]]]]]; simpl in H; injection H as <- ->.
      * apply partAudio_gives in Hp. congruence.
      * apply IH. exists pre, p', post. repeat split; [| exact Hp].
        now inversion Hpre.
Qed.

(** C6, as stated, fails: the first part exposes an [audioData.data] field
    whose value is the empty string, and the scan passes over it; the
    result comes from the second part. *)
Lemma empty_data_field_is_passed_over :
  let ps := [audioPart (lit ""); inlinePart (lit "B")] in
  option_map data (audioData (hd (inlinePart []) ps)) = Some (Some (lit "")) /\
  scanParts ps = Some (lit "B") /\
  lit "B" <> lit "".
Proof. repeat split. discriminate. Qed.

(** C6, amended: the parts are scanned in list order and the first part
    that holds a non-empty string under [audioData.data], or else under
    [inlineData.data], supplies the result, which the handler answers
    unmodified with status 200; for [[{inlineData:{data:"A"}},
    {audioData:{data:"B"}}]] the result is ["A"]; when no part holds a
    non-empty string the attempt fails with [NO_AUDIO_IN_RESPONSE]. *)
Theorem first_nonempty_part_supplies_audio :
  forall penv st promptText modelName attempt t r response,
    let w := {| now := t; outcome := Resolved response; random := r |} in
    let st1 := {| lastCallAtMs := t; lastSuccessAtMs := t;
                  isGenerating := false |} in
    (forall d,
       (exists pre p post,
          responseParts response = pre ++ p :: post /\
          Forall partGivesNothing pre /\ partGives p d) ->
       scanParts (responseParts response) = Some d /\
       step penv st (AwaitModel promptText modelName attempt) w =
         (st1, Done, [respond 200 (AudioBody d)])) /\
    scanParts [inlinePart (lit "A"); audioPart (lit "B")] = Some (lit "A") /\
    (Forall partGivesNothing (responseParts response) ->
       scanParts (responseParts response) = None /\
       step penv st (AwaitModel promptText modelName attempt) w =
         (st1, Done, [failure (newError "NO_AUDIO_IN_RESPONSE")]) /\
       errText (newError "NO_AUDIO_IN_RESPONSE") = lit "NO_AUDIO_IN_RESPONSE").
Proof.
  intros penv st promptText modelName attempt t r response w st1.
  split; [| split]; [| reflexivity |].
  - intros d H. apply scanParts_first in H. split; [exact H |].
    cbn. unfold settle. cbn. now rewrite H.
  - intros H. apply scanParts_nothing in H. split; [exact H |].
    split; [| reflexivity].
    cbn. unfold settle. cbn. now rewrite H.
Qed.

Lemma first_nonempty_part_supplies_audio_example :
  step defaultEnv initialState (AwaitModel (lit "calm piano") (lit "lyria-002") 1)
    (resolvedAt 1700000000000
       {| parts := Some [audioPart (lit ""); inlinePart (lit "QUJD");
                         audioPart (lit "REVG")] |}) =
  ({| lastCallAtMs := 1700000000000; lastSuccessAtMs := 1700000000000;
      isGenerating := false |}, Done, [respond 200 (AudioBody (lit "QUJD"))]).
Proof.
  apply (proj1 (first_nonempty_part_supplies_audio defaultEnv initialState
                  (lit "calm piano") (lit "lyria-002") 1 1700000000000 0.5%float
                  {| parts := Some [audioPart (lit ""); inlinePart (lit "QUJD");
                                    audioPart (lit "REVG")] |}) (lit "QUJD")).
  exists [audioPart (lit "")], (inlinePart (lit "QUJD")), [audioPart (lit "REVG")].
  split; [reflexivity |]. split.
  - constructor; [| constructor].
    apply partAudio_nothing. reflexivity.
  - apply partAudio_gives. reflexivity.
Defined.

(** C10, as stated, fails: a part carrying both fields, with the empty
    string under [audioData.data], yields its [inlineData.data]. *)
Lemma empty_audioData_yields_inlineData :
  scanParts [bothPart (lit "") (lit "X")] = Some (lit "X") /\
  option_map data (audioData (bothPart (lit "") (lit "X"))) = Some (Some (lit "")) /\
  lit "X" <> lit "".
Proof. repeat split. discriminate. Qed.

(** C10, amended: for a single part that carries both an [audioData.data]
    and an [inlineData.data] field, extraction returns the [audioData.data]
    value whenever that value is not the empty string; when it is the
    empty string the [inlineData.data] value is returned if it is not empty,
    and nothing is found otherwise. *)
Theorem audioData_precedes_inlineData :
  forall a b : jsstring,
    (a <> [] -> scanParts [bothPart a b] = Some a) /\
    (a = [] -> b <> [] -> scanParts [bothPart a b] = Some b) /\
    (a = [] -> b = [] -> scanParts [bothPart a b] = None).
Proof.
  intros a b. repeat split.
  - destruct a; [contradiction | reflexivity].
  - intros -> Hb. destruct b; [contradiction | reflexivity].
  - now intros -> ->.
Qed.

Lemma audioData_precedes_inlineData_example :
  scanParts [bothPart (lit "QQ==") (lit "Qg==")] = Some (lit "QQ==").
Proof.
  apply (proj1 (audioData_precedes_inlineData (lit "QQ==") (lit "Qg=="))).
  discriminate.
Defined.

(** Case analysis on the condition of the first conditional of the goal. *)
Ltac break_if :=
  match goal with
  | |- context [if ?c then _ else _] => destruct c eqn:?
  end.

(** ** The retry decision *)

Lemma catchAttempt_retry penv st p m attempt r err :
  shouldRetry err = true -> attempt <> MAX_ATTEMPTS penv ->
  catchAttempt penv st p m attempt r err =
  (st, Backoff p m attempt err, [Sleep (backoffDelay penv attempt r)]).
Proof.
  intros Hs Ha. unfold catchAttempt. rewrite Hs.
  apply Z.eqb_neq in Ha. now rewrite Ha.
Qed.

Lemma catchAttempt_throw penv st p m attempt r err :
  shouldRetry err = false \/ attempt = MAX_ATTEMPTS penv ->
  catchAttempt penv st p m attempt r err =
  (setGenerating false st, Done, [failure err]).
Proof.
  intros H. unfold catchAttempt.
  destruct H as [-> | ->]; [reflexivity |].
  now rewrite Z.eqb_refl, orb_true_r.
Qed.

(** ** The two timestamps *)

(** C3, as stated, fails: when the call of the model client is rejected at
    time 5000, [lastCallAtMs] keeps its old value 1000. *)
Lemma rejected_call_leaves_lastCallAtMs :
  let st := {| lastCallAtMs := 1000; lastSuccessAtMs := 1000;
               isGenerating := true |} in
  let w := rejectedAt 5000 (newError "503 Service Unavailable") in
  let st' := fst (fst (step threeAttemptsEnv st
                         (AwaitModel (lit "calm piano") (lit "lyria-002") 1) w)) in
  lastCallAtMs st' = 1000 /\ now w = 5000 /\ lastCallAtMs st' <> now w.
Proof. repeat split. discriminate. Qed.

(** C3, amended: [lastCallAtMs] records the time at which the most recent
    successful call of the model client returned.  When a call resolves,
    [lastCallAtMs] and [lastSuccessAtMs] are both set to the time read right
    after it; when a call is rejected both keep their values; and no other
    segment of a handler writes them. *)
Theorem timestamps_written_on_success_only :
  forall penv st promptText modelName attempt t r,
    (forall response,
       let st' := fst (fst (step penv st (AwaitModel promptText modelName attempt)
                              {| now := t; outcome := Resolved response;
                                 random := r |})) in
       lastCallAtMs st' = t /\ lastSuccessAtMs st' = t) /\
    (forall err,
       let st' := fst (fst (step penv st (AwaitModel promptText modelName attempt)
                              {| now := t; outcome := Rejected err;
                                 random := r |})) in
       lastCallAtMs st' = lastCallAtMs st /\
       lastSuccessAtMs st' = lastSuccessAtMs st) /\
    (forall ph w,
       (forall p m a, ph <> AwaitModel p m a) ->
       let st' := fst (fst (step penv st ph w)) in
       lastCallAtMs st' = lastCallAtMs st /\
       lastSuccessAtMs st' = lastSuccessAtMs st).
Proof.
  intros penv st promptText modelName attempt t r.
  split; [| split].
  - intros response. cbn. unfold settle. cbn.
    destruct (scanParts (responseParts response)); now cbn.
  - intros err. cbn. unfold settle, catchAttempt. cbn.
    break_if; now cbn.
  - intros ph w Hph. destruct ph as [rq | p m | p m a | p m a e |]; cbn.
    + unfold arrive, enterAttempt. repeat (break_if; cbn); now split.
    + unfold enterAttempt. break_if; now cbn.
    + now destruct (Hph p m a).
    + unfold enterAttempt. break_if; now cbn.
    + now split.
Qed.

Lemma timestamps_written_on_success_only_example :
  let st := {| lastCallAtMs := 1000; lastSuccessAtMs := 1000;
               isGenerating := true |} in
  let st' := fst (fst (step defaultEnv st
                         (AwaitModel (lit "calm piano") (lit "lyria-002") 1)
                         {| now := 5000; outcome := Resolved (audioResponse "QUJD");
                            random := 0.5%float |})) in
  lastCallAtMs st' = 5000 /\ lastSuccessAtMs st' = 5000.
Proof.
  exact (proj1 (timestamps_written_on_success_only defaultEnv
                  {| lastCallAtMs := 1000; lastSuccessAtMs := 1000;
                     isGenerating := true |}
                  (lit "calm piano") (lit "lyria-002") 1 5000 0.5%float)
               (audioResponse "QUJD")).
Defined.

(** ** Validation and the busy gate *)

(** C5, as stated, fails: the empty string has trimmed length 0, and it is
    answered with the error [Invalid prompt], not with the error of an
    empty prompt. *)
Lemma empty_string_prompt_is_invalid :
  JsString.length (trim (lit "")) = 0 /\
  arrive defaultEnv initialState 1700000000000 (postPrompt "") =
    (initialState, Done, [respond 400 (ErrorBody (lit "Invalid prompt"))]) /\
  lit "Invalid prompt" <> lit "Prompt cannot be empty".
Proof. repeat split. discriminate. Qed.

(** C5, amended: a request whose prompt is a string of trimmed length 0 is
    answered in its first segment and the model client is never called.
    The answer is 429 when a generation is in flight; otherwise it is 400,
    with the error [Invalid prompt] when the prompt is the empty string and
    [Prompt cannot be empty] when it is a non-empty string of white
    space. *)
Theorem blank_prompt_never_reaches_model :
  forall penv st w rq s,
    rq_prompt rq = JStr s ->
    JsString.length (trim s) = 0 ->
    exists answer,
      step penv st (Arrived rq) w = (st, Done, [answer]) /\
      isDispatch answer = false /\
      (isGenerating st = true -> answer = busy penv st (now w)) /\
      (isGenerating st = false -> s = [] ->
       answer = respond 400 (ErrorBody (lit "Invalid prompt"))) /\
      (isGenerating st = false -> s <> [] ->
       answer = respond 400 (ErrorBody (lit "Prompt cannot be empty"))).
Proof.
  intros penv st w rq s Hp Hlen. unfold step, arrive. rewrite Hp.
  cbn [val_truthy typeof_string val_string negb orb].
  destruct (isGenerating st) eqn:Hg.
  - eexists. split; [reflexivity |]. repeat split; congruence.
  - rewrite Hlen, Z.eqb_refl. destruct s as [|c s]; cbn [truthy negb orb].
    + eexists. split; [reflexivity |]. repeat split; congruence.
    + eexists. split; [reflexivity |]. repeat split; congruence.
Qed.

Lemma blank_prompt_never_reaches_model_example :
  exists answer,
    step defaultEnv initialState (Arrived (getPrompt "   "))
      (clockAt 1700000000000) = (initialState, Done, [answer]) /\
    isDispatch answer = false /\
    (isGenerating initialState = true ->
     answer = busy defaultEnv initialState 1700000000000) /\
    (isGenerating initialState = false -> lit "   " = [] ->
     answer = respond 400 (ErrorBody (lit "Invalid prompt"))) /\
    (isGenerating initialState = false -> lit "   " <> [] ->
     answer = respond 400 (ErrorBody (lit "Prompt cannot be empty"))).
Proof.
  apply (blank_prompt_never_reaches_model defaultEnv initialState
           (clockAt 1700000000000) (getPrompt "   ") (lit "   "));
    reflexivity.
Defined.

(** ** Every request is answered, and the flag comes down *)

Lemma MAX_ATTEMPTS_pos penv : 1 <= MAX_ATTEMPTS penv.
Proof. apply Z.le_max_l. Qed.

Lemma MIN_INTERVAL_MS_nonneg penv : 0 <= MIN_INTERVAL_MS penv.
Proof. apply Z.le_max_l. Qed.

Lemma enterAttempt_first penv st p m lastErr :
  enterAttempt penv st p m 1 lastErr =
  (st, AwaitModel p m 1, [Dispatch m (requestText p)]).
Proof.
  unfold enterAttempt.
  assert (E : (1 <=? MAX_ATTEMPTS penv) = true)
    by (apply Z.leb_le, MAX_ATTEMPTS_pos).
  now rewrite E.
Qed.

Lemma step_segmentsLeft penv st ph w :
  inFlight ph = true ->
  (segmentsLeft penv (snd (fst (step penv st ph w))) < segmentsLeft penv ph)%nat.
Proof.
  pose proof (MAX_ATTEMPTS_pos penv) as Hmax.
  destruct ph as [rq | p m | p m a | p m a e |]; intros Hin;
    try discriminate; cbn [step].
  - unfold arrive. rewrite enterAttempt_first.
    repeat (break_if; cbn [fst snd segmentsLeft]); lia.
  - rewrite enterAttempt_first. cbn [fst snd segmentsLeft]. lia.
  - unfold settle, catchAttempt, handlerReturn, handlerCatch.
    destruct (outcome w) as [resp | err];
      try destruct (scanParts (responseParts resp));
      repeat break_if; cbn [fst snd segmentsLeft]; lia.
  - unfold enterAttempt, handlerCatch.
    destruct (a + 1 <=? MAX_ATTEMPTS penv) eqn:E; cbn [fst snd segmentsLeft].
    + apply Z.leb_le in E. lia.
    + lia.
Qed.

Lemma run_cons penv st ph w ws :
  inFlight ph = true ->
  run penv st ph (w :: ws) =
  (let '(st1, ph1, effs) := step penv st ph w in
   let '(st2, ph2, trace) := run penv st1 ph1 ws in
   (st2, ph2, List.map (fun e => (now w, e)) effs ++ trace)).
Proof. destruct ph; intros H; try discriminate; reflexivity. Qed.

Lemma run_Done penv st ws : run penv st Done ws = (st, Done, []).
Proof. now destruct ws. Qed.

Lemma run_answers penv ws : forall st ph,
  (segmentsLeft penv ph <= List.length ws)%nat ->
  snd (fst (run penv st ph ws)) = Done.
Proof.
  induction ws as [|w ws IH]; intros st ph Hlen.
  - destruct ph; cbn in Hlen; try lia. reflexivity.
  - destruct (inFlight ph) eqn:Hin.
    + rewrite run_cons by assumption.
      pose proof (step_segmentsLeft penv st ph w Hin) as Hlt.
      destruct (step penv st ph w) as [[st1 ph1] effs]. cbn [fst snd] in Hlt.
      specialize (IH st1 ph1).
      destruct (run penv st1 ph1 ws) as [[st2 ph2] trace]. cbn [fst snd] in *.
      apply IH. cbn [List.length] in Hlen. lia.
    + destruct ph; try discriminate. now rewrite run_Done.
Qed.

(** A segment that answers a request which passed the gate leaves the flag
    down; a segment that suspends never leaves the request at its arrival. *)
Lemma step_release penv st ph w :
  inFlight ph = true ->
  (isArrived ph = true -> isGenerating st = false) ->
  let '(st1, ph1, _) := step penv st ph w in
  isArrived ph1 = false /\ (ph1 = Done -> isGenerating st1 = false).
Proof.
  destruct ph as [rq | p m | p m a | p m a e |]; intros Hin Harr;
    try discriminate; cbn [step].
  - unfold arrive. rewrite enterAttempt_first, (Harr eq_refl).
    repeat break_if; split; auto; discriminate.
  - rewrite enterAttempt_first. split; [reflexivity | discriminate].
  - unfold settle, catchAttempt, handlerReturn, handlerCatch.
    destruct (outcome w) as [resp | err];
      try destruct (scanParts (responseParts resp));
      repeat break_if; split; auto; discriminate.
  - unfold enterAttempt, handlerCatch. break_if; split; auto; discriminate.
Qed.

Lemma run_release penv ws : forall st ph,
  inFlight ph = true ->
  (isArrived ph = true -> isGenerating st = false) ->
  snd (fst (run penv st ph ws)) = Done ->
  isGenerating (fst (fst (run penv st ph ws))) = false.
Proof.
  induction ws as [|w ws IH]; intros st ph Hin Harr Hdone.
  - destruct ph; try discriminate.
  - rewrite run_cons in * by assumption.
    pose proof (step_release penv st ph w Hin Harr) as Hstep.
    destruct (step penv st ph w) as [[st1 ph1] effs].
    destruct Hstep as [Hna Hrel].
    destruct (inFlight ph1) eqn:Hin1.
    + specialize (IH st1 ph1 Hin1).
      destruct (run penv st1 ph1 ws) as [[st2 ph2] trace]. cbn [fst snd] in *.
      apply IH; [| assumption]. rewrite Hna. discriminate.
    + destruct ph1; try discriminate. rewrite run_Done in *. cbn [fst snd].
      now apply Hrel.
Qed.

(** With the flag down, the busy gate lets a request through. *)
Lemma gate_open penv st t rq c :
  isGenerating st = false ->
  ~ In (respond 429 c) (snd (arrive penv st t rq)).
Proof.
  intros Hg. unfold arrive. rewrite Hg, enterAttempt_first.
  repeat break_if; cbn; intros [H | H]; try discriminate; contradiction.
Qed.

(** ** Single flight, seen from the server *)

Lemma countInFlight_app phs ph :
  countInFlight (phs ++ [ph]) =
  (countInFlight phs + (if inFlight ph then 1 else 0))%nat.
Proof.
  unfold countInFlight. rewrite filter_app, length_app. cbn [filter].
  now destruct (inFlight ph).
Qed.

Lemma countInFlight_setPhase ph' : forall phs id ph,
  nth_error phs id = Some ph ->
  (countInFlight (setPhase id ph' phs) + (if inFlight ph then 1 else 0) =
   countInFlight phs + (if inFlight ph' then 1 else 0))%nat.
Proof.
  unfold countInFlight.
  induction phs as [|q phs IH]; intros [|id] ph H; try discriminate.
  - injection H as ->. cbn [setPhase filter].
    destruct (inFlight ph), (inFlight ph'); cbn [List.length]; lia.
  - cbn [nth_error] in H. specialize (IH id ph H). cbn [setPhase filter].
    destruct (inFlight q); cbn [List.length]; lia.
Qed.

Lemma setPhase_Forall (P : Phase -> Prop) ph' : forall phs id,
  P ph' -> Forall P phs -> Forall P (setPhase id ph' phs).
Proof.
  induction phs as [|q phs IH]; intros [|id] Hp Hall; cbn [setPhase];
    try constructor; inversion Hall; subst; auto.
Qed.

(** What the first segment does to the flag. *)
Lemma arrive_flag penv st t rq :
  let '(st1, ph1, _) := arrive penv st t rq in
  isArrived ph1 = false /\
  ((ph1 = Done /\ st1 = st) \/
   (isGenerating st = false /\ inFlight ph1 = true /\
    isGenerating st1 = true)).
Proof.
  unfold arrive. rewrite enterAttempt_first.
  repeat break_if; split; auto.
Qed.

(** What a later segment does to the flag. *)
Lemma wake_flag penv st ph w :
  inFlight ph = true -> isArrived ph = false ->
  let '(st1, ph1, _) := step penv st ph w in
  isArrived ph1 = false /\
  ((ph1 = Done /\ isGenerating st1 = false) \/
   (inFlight ph1 = true /\ isGenerating st1 = isGenerating st)).
Proof.
  destruct ph as [rq | p m | p m a | p m a e |]; intros Hin Harr;
    try discriminate; cbn [step].
  - rewrite enterAttempt_first. split; auto.
  - unfold settle, catchAttempt, handlerReturn, handlerCatch.
    destruct (outcome w) as [resp | err];
      try destruct (scanParts (responseParts resp));
      repeat break_if; split; auto.
  - unfold enterAttempt, handlerCatch. break_if; split; auto.
Qed.

Lemma inFlight_counted : forall phs id ph,
  nth_error phs id = Some ph -> inFlight ph = true ->
  (1 <= countInFlight phs)%nat.
Proof.
  unfold countInFlight.
  induction phs as [|q phs IH]; intros [|id] ph H Hin; try discriminate.
  - injection H as ->. cbn [filter]. rewrite Hin. cbn [List.length]. lia.
  - cbn [nth_error] in H. specialize (IH id ph H Hin). cbn [filter].
    destruct (inFlight q); cbn [List.length]; lia.
Qed.

Lemma handle_singleFlight penv sv ev :
  singleFlight sv -> singleFlight (handle penv sv ev).
Proof.
  intros [Hcount Hall]. destruct ev as [rq t | id w]; cbn [handle].
  - pose proof (arrive_flag penv (gateway sv) t rq) as H.
    destruct (arrive penv (gateway sv) t rq) as [[st1 ph1] effs].
    destruct H as [Hna H]. split; cbn [gateway requests].
    + rewrite countInFlight_app, Hcount.
      destruct H as [[-> ->] | [Hg [Hin Hg1]]]; cbn [inFlight].
      * lia.
      * rewrite Hg, Hg1, Hin. reflexivity.
    + apply Forall_app. split; [assumption | now constructor].
  - destruct (nth_error (requests sv) id) as [ph|] eqn:Hnth;
      [| now split].
    assert (Hph : isArrived ph = false).
    { rewrite Forall_forall in Hall. eapply Hall, nth_error_In, Hnth. }
    pose proof (countInFlight_setPhase) as Hset.
    destruct (inFlight ph) eqn:Hin.
    + pose proof (wake_flag penv (gateway sv) ph w Hin Hph) as H.
      destruct (step penv (gateway sv) ph w) as [[st1 ph1] effs].
      destruct H as [Hna H]. specialize (Hset ph1 _ _ _ Hnth).
      rewrite Hin in Hset. split; cbn [gateway requests].
      * pose proof (inFlight_counted _ _ _ Hnth Hin) as Hone.
        destruct (isGenerating (gateway sv)) eqn:Hg; [| lia].
        destruct H as [[-> ->] | [Hin1 ->]].
        -- cbn [inFlight] in Hset. lia.
        -- rewrite Hin1 in Hset. lia.
      * now apply setPhase_Forall.
    + destruct ph; try discriminate. cbn [step].
      specialize (Hset Done _ _ _ Hnth). cbn [inFlight] in Hset.
      split; cbn [gateway requests].
      * lia.
      * now apply setPhase_Forall.
Qed.

Lemma serve_singleFlight penv evs : forall sv,
  singleFlight sv -> singleFlight (serve penv sv evs).
Proof.
  unfold serve. induction evs as [|ev evs IH]; intros sv H; [exact H |].
  cbn [fold_left]. now apply IH, handle_singleFlight.
Qed.

Lemma boot_singleFlight : singleFlight bootServer.
Proof. split; [reflexivity | constructor]. Qed.

(** Whenever some request is in flight on a server started from scratch,
    the flag is up. *)
Lemma inFlight_flag penv evs id ph :
  nth_error (requests (serve penv bootServer evs)) id = Some ph ->
  inFlight ph = true ->
  isGenerating (gateway (serve penv bootServer evs)) = true.
Proof.
  intros Hnth Hin.
  destruct (serve_singleFlight penv evs bootServer boot_singleFlight)
    as [Hcount _].
  pose proof (inFlight_counted _ _ _ Hnth Hin) as Hone.
  destruct (isGenerating (gateway (serve penv bootServer evs)));
    [reflexivity | lia].
Qed.

Lemma someone_inFlight : forall phs,
  (1 <= countInFlight phs)%nat ->
  exists id ph, nth_error phs id = Some ph /\ inFlight ph = true.
Proof.
  unfold countInFlight. induction phs as [|q phs IH]; cbn [filter].
  - cbn. lia.
  - destruct (inFlight q) eqn:Hq.
    + intros _. now exists 0%nat, q.
    + intros H. destruct (IH H) as [id [ph [Hnth Hin]]].
      now exists (S id), ph.
Qed.

(** C1: a request that passes the busy gate is answered after at most
    [2 * MAX_ATTEMPTS + 2] segments, whatever the model client does
    (success, no audio, an error that is not retried, retries used up), and
    when it is answered [isGenerating] is false, so that the busy gate does
    not reject the next request.  On the server, whatever requests arrive
    in between, the flag is up only while some request is still in flight:
    a request that has been answered never leaves it up. *)
Theorem busy_flag_released :
  forall penv st rq ws,
    isGenerating st = false ->
    (2 * Z.to_nat (MAX_ATTEMPTS penv) + 2 <= List.length ws)%nat ->
    (let '(st', ph', _) := run penv st (Arrived rq) ws in
     ph' = Done /\
     isGenerating st' = false /\
     forall t rq' c, ~ In (respond 429 c) (snd (arrive penv st' t rq'))) /\
    (forall evs,
       let sv := serve penv bootServer evs in
       isGenerating (gateway sv) = true ->
       exists id ph, nth_error (requests sv) id = Some ph /\ inFlight ph = true).
Proof.
  intros penv st rq ws Hg Hlen. split.
  - pose proof (run_answers penv ws st (Arrived rq) Hlen) as Hdone.
    pose proof (run_release penv ws st (Arrived rq) eq_refl (fun _ => Hg) Hdone)
      as Hrel.
    destruct (run penv st (Arrived rq) ws) as [[st' ph'] trace].
    cbn [fst snd] in *. repeat split; try assumption.
    intros t rq' c. now apply gate_open.
  - intros evs sv Hup.
    destruct (serve_singleFlight penv evs bootServer boot_singleFlight)
      as [Hcount _].
    fold sv in Hcount. rewrite Hup in Hcount.
    apply someone_inFlight. lia.
Qed.

Lemma busy_flag_released_example :
  let ws := [clockAt 1700000000000;
             rejectedAt 1700000000400 (newError "429 Too Many Requests");
             clockAt 1700000001600;
             rejectedAt 1700000002000 (newError "503 Service Unavailable");
             clockAt 1700000004400;
             resolvedAt 1700000004900 {| parts := None |};
             clockAt 1700000005000; clockAt 1700000005000] in
  (let '(st', ph', _) :=
     run threeAttemptsEnv initialState (Arrived (postPrompt "calm piano")) ws in
   ph' = Done /\
   isGenerating st' = false /\
   forall t rq' c,
     ~ In (respond 429 c) (snd (arrive threeAttemptsEnv st' t rq'))) /\
  (forall evs,
     let sv := serve threeAttemptsEnv bootServer evs in
     isGenerating (gateway sv) = true ->
     exists id ph, nth_error (requests sv) id = Some ph /\ inFlight ph = true).
Proof.
  intros ws.
  apply (busy_flag_released threeAttemptsEnv initialState
           (postPrompt "calm piano") ws eq_refl).
  vm_compute. lia.
Defined.

(** ** The order of the gate, the flag and the pacing wait *)

Lemma acceptable_truthy (s : jsstring) :
  1 <= JsString.length (trim s) -> truthy s = true.
Proof. destruct s; [cbn; lia | reflexivity]. Qed.

(** An accepted request that comes too soon after the last call: the flag
    goes up, then the request sleeps for what is left of the interval. *)
Lemma arrive_pacing penv st t rq s :
  isGenerating st = false ->
  rq_prompt rq = JStr s ->
  1 <= JsString.length (trim s) <= 500 ->
  t - lastCallAtMs st < MIN_INTERVAL_MS penv ->
  arrive penv st t rq =
  (setGenerating true st, Pacing (trim s) (chosenModel penv rq),
   [Sleep (ofZ (MIN_INTERVAL_MS penv - (t - lastCallAtMs st)))]).
Proof.
  intros Hg Hp [Hlo Hhi] Hsince. unfold arrive. rewrite Hg, Hp.
  cbn [val_truthy typeof_string val_string lastCallAtMs setGenerating].
  rewrite (acceptable_truthy s Hlo). cbn [negb orb].
  destruct (Z.eqb_spec (JsString.length (trim s)) 0) as [E | _]; [lia |].
  destruct (Z.gtb_spec (JsString.length (trim s)) 500) as [E | _]; [lia |].
  apply Z.ltb_lt in Hsince. now rewrite Hsince.
Qed.

(** An accepted request that comes late enough calls the model client in
    its first segment. *)
Lemma arrive_direct penv st t rq s :
  isGenerating st = false ->
  rq_prompt rq = JStr s ->
  1 <= JsString.length (trim s) <= 500 ->
  MIN_INTERVAL_MS penv <= t - lastCallAtMs st ->
  arrive penv st t rq =
  (setGenerating true st, AwaitModel (trim s) (chosenModel penv rq) 1,
   [Dispatch (chosenModel penv rq) (requestText (trim s))]).
Proof.
  intros Hg Hp [Hlo Hhi] Hsince. unfold arrive. rewrite Hg, Hp.
  cbn [val_truthy typeof_string val_string lastCallAtMs setGenerating].
  rewrite (acceptable_truthy s Hlo). cbn [negb orb].
  destruct (Z.eqb_spec (JsString.length (trim s)) 0) as [E | _]; [lia |].
  destruct (Z.gtb_spec (JsString.length (trim s)) 500) as [E | _]; [lia |].
  apply Z.ltb_ge in Hsince. rewrite Hsince. apply enterAttempt_first.
Qed.

(** C4, as stated, fails: after a first generation has ended, a second
    request is suspended in its pacing wait with the flag already up, and a
    third request that arrives during that wait is rejected with 429. *)
Lemma request_during_pacing_is_rejected :
  let sv := serve defaultEnv bootServer
              [Arrival (postPrompt "calm piano") 1700000000000;
               Wake 0 (resolvedAt 1700000000400 (audioResponse "QUJD"));
               Arrival (postPrompt "rainy jazz") 1700000000900] in
  nth_error (requests sv) 1 = Some (Pacing (lit "rainy jazz") (lit "lyria-002")) /\
  isGenerating (gateway sv) = true /\
  sent (handle defaultEnv sv (Arrival (getPrompt "slow waltz") 1700000001000)) =
    sent sv ++
    [(2%nat, Respond {| status := 429;
                        body := BusyBody (lit "Server busy, try again") 6400 |})].
Proof. repeat split. Qed.

(** C4, amended: a handler passes the busy gate, validates the prompt,
    sets [isGenerating = true] and only then starts the pacing wait.  So
    while a request is suspended in the pacing wait the flag is true, and
    every request that arrives during that wait is rejected by the busy
    gate with 429. *)
Theorem flag_raised_before_pacing :
  forall penv,
    (forall st t rq s,
       isGenerating st = false ->
       rq_prompt rq = JStr s ->
       1 <= JsString.length (trim s) <= 500 ->
       t - lastCallAtMs st < MIN_INTERVAL_MS penv ->
       arrive penv st t rq =
         (setGenerating true st, Pacing (trim s) (chosenModel penv rq),
          [Sleep (ofZ (MIN_INTERVAL_MS penv - (t - lastCallAtMs st)))])) /\
    (forall evs id promptText modelName,
       let sv := serve penv bootServer evs in
       nth_error (requests sv) id = Some (Pacing promptText modelName) ->
       isGenerating (gateway sv) = true /\
       forall rq t,
         handle penv sv (Arrival rq t) =
           {| gateway := gateway sv;
              requests := requests sv ++ [Done];
              sent := sent sv ++
                      [(List.length (requests sv), busy penv (gateway sv) t)] |}).
Proof.
  intros penv. split.
  - intros st t rq s. apply arrive_pacing.
  - intros evs id promptText modelName sv Hnth.
    assert (Hg : isGenerating (gateway sv) = true)
      by (eapply inFlight_flag; [exact Hnth | reflexivity]).
    split; [exact Hg |].
    intros rq t. cbn [handle]. unfold arrive. now rewrite Hg.
Qed.

Lemma flag_raised_before_pacing_example :
  let sv := serve defaultEnv bootServer
              [Arrival (postPrompt "calm piano") 1700000000000;
               Wake 0 (resolvedAt 1700000000400 (audioResponse "QUJD"));
               Arrival (postPrompt "rainy jazz") 1700000000900] in
  isGenerating (gateway sv) = true /\
  forall rq t,
    handle defaultEnv sv (Arrival rq t) =
      {| gateway := gateway sv;
         requests := requests sv ++ [Done];
         sent := sent sv ++
                 [(List.length (requests sv), busy defaultEnv (gateway sv) t)] |}.
Proof.
  exact (proj2 (flag_raised_before_pacing defaultEnv)
           [Arrival (postPrompt "calm piano") 1700000000000;
            Wake 0 (resolvedAt 1700000000400 (audioResponse "QUJD"));
            Arrival (postPrompt "rainy jazz") 1700000000900]
           1%nat (lit "rainy jazz") (lit "lyria-002") eq_refl).
Defined.

(** ** Pacing *)

Lemma dispatchTimes_app tr1 tr2 :
  dispatchTimes (tr1 ++ tr2) = dispatchTimes tr1 ++ dispatchTimes tr2.
Proof. unfold dispatchTimes. now rewrite filter_app, map_app. Qed.

Lemma dispatchTimes_stamped t effs d :
  In d (dispatchTimes (List.map (fun e => (t, e)) effs)) ->
  d = t /\ filter isDispatch effs <> [].
Proof.
  unfold dispatchTimes. induction effs as [|e effs IH]; cbn; [contradiction |].
  destruct (isDispatch e); cbn.
  - intros [<- | H]; split; try reflexivity; try discriminate.
    now apply IH.
  - intros H. now apply IH.
Qed.

Lemma dispatchTimes_In tr d :
  In d (dispatchTimes tr) -> exists e, In (d, e) tr.
Proof.
  unfold dispatchTimes. intros H. apply in_map_iff in H.
  destruct H as [[t e] [<- H]]. apply filter_In in H. now exists e.
Qed.

(** Every entry of a trace is stamped with the clock of some segment. *)
Lemma trace_times penv ws : forall st ph t e,
  In (t, e) (snd (run penv st ph ws)) -> In t (List.map now ws).
Proof.
  induction ws as [|w ws IH]; intros st ph t e H.
  - destruct ph; contradiction.
  - destruct (inFlight ph) eqn:Hin.
    + rewrite run_cons in H by assumption.
      destruct (step penv st ph w) as [[st1 ph1] effs].
      specialize (IH st1 ph1 t e).
      destruct (run penv st1 ph1 ws) as [[st2 ph2] trace]. cbn [snd] in *.
      apply in_app_or in H. destruct H as [H | H].
      * apply in_map_iff in H. destruct H as [e' [[= <- _] _]]. now left.
      * right. now apply IH.
    + destruct ph; try discriminate. rewrite run_Done in H. contradiction.
Qed.

(** The segment that answers 200 is the one that has just written the two
    timestamps. *)
Lemma step_success penv st ph w audio :
  In (respond 200 (AudioBody audio)) (snd (step penv st ph w)) ->
  snd (fst (step penv st ph w)) = Done /\
  lastCallAtMs (fst (fst (step penv st ph w))) = now w.
Proof.
  destruct ph as [rq | p m | p m a | p m a e |]; cbn [step].
  - unfold arrive. rewrite enterAttempt_first.
    repeat break_if; cbn; intros [H | H]; try discriminate; contradiction.
  - rewrite enterAttempt_first. cbn. intros [H | H]; try discriminate;
      contradiction.
  - unfold settle, catchAttempt, handlerReturn, handlerCatch.
    destruct (outcome w) as [resp | err];
      try destruct (scanParts (responseParts resp));
      repeat break_if; cbn; intros [H | H]; try discriminate;
      try contradiction; now split.
  - unfold enterAttempt, handlerCatch.
    break_if; cbn; intros [H | H]; try discriminate; contradiction.
  - contradiction.
Qed.

(** When a run ends with a 200, [lastCallAtMs] is the time of one of its
    segments, and no call of the model client was made after it. *)
Lemma run_success_lastCall penv audio ws : forall st ph,
  clockMonotone ws ->
  In (respond 200 (AudioBody audio)) (List.map snd (snd (run penv st ph ws))) ->
  In (lastCallAtMs (fst (fst (run penv st ph ws)))) (List.map now ws) /\
  forall d, In d (dispatchTimes (snd (run penv st ph ws))) ->
            d <= lastCallAtMs (fst (fst (run penv st ph ws))).
Proof.
  unfold clockMonotone.
  induction ws as [|w ws IH]; intros st ph Hmono Hok.
  - destruct ph; contradiction.
  - destruct (inFlight ph) eqn:Hin;
      [| destruct ph; try discriminate; rewrite run_Done in Hok; contradiction].
    cbn [List.map] in Hmono. apply StronglySorted_inv in Hmono.
    destruct Hmono as [Hmono Hall]. rewrite Forall_forall in Hall.
    rewrite run_cons in * by assumption.
    pose proof (step_success penv st ph w audio) as Hstep.
    destruct (step penv st ph w) as [[st1 ph1] effs]. cbn [fst snd] in Hstep.
    specialize (IH st1 ph1 Hmono).
    destruct (run penv st1 ph1 ws) as [[st2 ph2] trace] eqn:Hrun.
    cbn [fst snd] in *.
    rewrite map_app, map_map in Hok. cbn [snd] in Hok. rewrite map_id in Hok.
    apply in_app_or in Hok. destruct Hok as [Hok | Hok].
    + destruct (Hstep Hok) as [-> Hlast].
      rewrite run_Done in Hrun. injection Hrun as <- _ <-.
      rewrite app_nil_r. split; [left; congruence |].
      intros d Hd. apply dispatchTimes_stamped in Hd. lia.
    + destruct (IH Hok) as [Hin2 Hle]. split; [now right |].
      intros d Hd. rewrite dispatchTimes_app in Hd.
      apply in_app_or in Hd. destruct Hd as [Hd | Hd]; [| now apply Hle].
      apply dispatchTimes_stamped in Hd. destruct Hd as [-> _].
      now apply Hall.
Qed.

(** What the first segment can do, as far as calls are concerned. *)
Lemma arrive_shape penv st t rq :
  let '(_, ph1, effs) := arrive penv st t rq in
  (ph1 = Done /\ filter isDispatch effs = []) \/
  ((exists p m, ph1 = Pacing p m) /\ filter isDispatch effs = [] /\
   t - lastCallAtMs st < MIN_INTERVAL_MS penv) \/
  MIN_INTERVAL_MS penv <= t - lastCallAtMs st.
Proof.
  unfold arrive. rewrite enterAttempt_first.
  cbn [lastCallAtMs setGenerating].
  repeat break_if; auto;
    match goal with
    | H : (_ <? _) = true |- _ => apply Z.ltb_lt in H
    | H : (_ <? _) = false |- _ => apply Z.ltb_ge in H
    end.
  - right. left. repeat split; eauto.
  - right. left. repeat split; eauto.
  - now right; right.
  - now right; right.
Qed.

(** With a clock that does not go back and a pacing timer that does not
    fire early, a request calls the model client no sooner than
    [MIN_INTERVAL_MS] after [lastCallAtMs]. *)
Lemma run_paced penv ws st rq d :
  clockMonotone ws ->
  pacingHonoured penv st ws ->
  In d (dispatchTimes (snd (run penv st (Arrived rq) ws))) ->
  lastCallAtMs st + MIN_INTERVAL_MS penv <= d.
Proof.
  unfold clockMonotone. intros Hmono Hpace Hd.
  destruct ws as [|w1 rest]; [contradiction |].
  rewrite run_cons in Hd by reflexivity. cbn [step] in Hd.
  pose proof (arrive_shape penv st (now w1) rq) as Hshape.
  destruct (arrive penv st (now w1) rq) as [[st1 ph1] effs].
  pose proof (trace_times penv rest st1 ph1) as Htimes.
  destruct (run penv st1 ph1 rest) as [[st2 ph2] trace] eqn:Hrun.
  cbn [snd] in *. rewrite dispatchTimes_app in Hd.
  cbn [List.map] in Hmono. apply StronglySorted_inv in Hmono.
  destruct Hmono as [Hmono Hall]. rewrite Forall_forall in Hall.
  assert (Hlater : In d (dispatchTimes trace) -> In d (List.map now rest)).
  { intros H. apply dispatchTimes_In in H. destruct H as [e H].
    eapply Htimes, H. }
  apply in_app_or in Hd.
  destruct Hshape as [[-> Hno] | [[[p [m ->]] [Hno Hsince]] | Hsince]].
  - rewrite run_Done in Hrun. injection Hrun as _ _ <-.
    destruct Hd as [Hd | Hd]; [| contradiction].
    apply dispatchTimes_stamped in Hd. tauto.
  - destruct Hd as [Hd | Hd];
      [apply dispatchTimes_stamped in Hd; tauto |].
    apply Hlater in Hd. destruct rest as [|w2 rest']; [contradiction |].
    cbn [pacingHonoured] in Hpace. cbn [List.map] in Hmono, Hd.
    apply StronglySorted_inv in Hmono. destruct Hmono as [_ Hall2].
    rewrite Forall_forall in Hall2.
    destruct Hd as [<- | Hd]; [lia |]. specialize (Hall2 d Hd). lia.
  - destruct Hd as [Hd | Hd].
    + apply dispatchTimes_stamped in Hd. lia.
    + specialize (Hall d (Hlater Hd)). lia.
Qed.

(** C9: an accepted request that arrives less than [MIN_INTERVAL_MS] after
    [lastCallAtMs] sleeps for exactly the remaining difference, and the
    model client is called only in the segment after that sleep.  Hence,
    of two successive calls the first of which succeeded, the second is
    dispatched at least [MIN_INTERVAL_MS] after the first was dispatched
    (the clock not going back and the pacing timer not firing early): with
    [MIN_INTERVAL_MS = 2000] that is at least 1500 ms, however soon the
    second request arrives. *)
Theorem pacing_spaces_calls :
  forall penv,
    (forall st w rq s,
       isGenerating st = false ->
       rq_prompt rq = JStr s ->
       1 <= JsString.length (trim s) <= 500 ->
       now w - lastCallAtMs st < MIN_INTERVAL_MS penv ->
       let wait := MIN_INTERVAL_MS penv - (now w - lastCallAtMs st) in
       let promptText := trim s in
       let modelName := chosenModel penv rq in
       step penv st (Arrived rq) w =
         (setGenerating true st, Pacing promptText modelName,
          [Sleep (ofZ wait)]) /\
       forall st' w',
         step penv st' (Pacing promptText modelName) w' =
           (st', AwaitModel promptText modelName 1,
            [Dispatch modelName (requestText promptText)])) /\
    (forall st0 rq1 ws1 rq2 ws2 audio d1 d2,
       let first := run penv st0 (Arrived rq1) ws1 in
       let second := run penv (fst (fst first)) (Arrived rq2) ws2 in
       clockMonotone ws1 ->
       clockMonotone ws2 ->
       pacingHonoured penv (fst (fst first)) ws2 ->
       In (respond 200 (AudioBody audio)) (List.map snd (snd first)) ->
       In d1 (dispatchTimes (snd first)) ->
       In d2 (dispatchTimes (snd second)) ->
       d1 + MIN_INTERVAL_MS penv <= d2 /\
       (MIN_INTERVAL_MS penv = 2000 -> d1 + 1500 <= d2)).
Proof.
  intros penv. split.
  - intros st w rq s Hg Hp Hlen Hsince wait promptText modelName. split.
    + cbn [step]. now apply arrive_pacing.
    + intros st' w'. cbn [step]. apply enterAttempt_first.
  - intros st0 rq1 ws1 rq2 ws2 audio d1 d2 first second
           Hmono1 Hmono2 Hpace Hok Hd1 Hd2.
    destruct (run_success_lastCall penv audio ws1 st0 (Arrived rq1) Hmono1 Hok)
      as [_ Hbefore].
    specialize (Hbefore d1 Hd1).
    pose proof (run_paced penv ws2 _ rq2 d2 Hmono2 Hpace Hd2) as Hafter.
    fold first in Hbefore. lia.
Qed.

Lemma pacing_spaces_calls_example :
  let ws1 := [clockAt 1700000000000;
              resolvedAt 1700000000300 (audioResponse "QUJD")] in
  let ws2 := [clockAt 1700000000500; clockAt 1700000002300;
              resolvedAt 1700000002900 (audioResponse "REVG")] in
  let first := run defaultEnv initialState (Arrived (postPrompt "calm piano")) ws1 in
  let second := run defaultEnv (fst (fst first)) (Arrived (postPrompt "rainy jazz")) ws2 in
  dispatchTimes (snd first) = [1700000000000] /\
  dispatchTimes (snd second) = [1700000002300] /\
  In (1700000000500, Sleep 1800) (snd second) /\
  MIN_INTERVAL_MS defaultEnv = 2000 /\
  1700000000000 + 1500 <= 1700000002300.
Proof.
  intros ws1 ws2 first second.
  split; [reflexivity |]. split; [reflexivity |].
  split; [now left |]. split; [reflexivity |].
  refine (proj2 (proj2 (pacing_spaces_calls defaultEnv)
                   initialState (postPrompt "calm piano") ws1
                   (postPrompt "rainy jazz") ws2 (lit "QUJD")
                   1700000000000 1700000002300 _ _ _ _ _ _) eq_refl).
  - unfold clockMonotone. cbn. repeat (constructor; try lia).
  - unfold clockMonotone. cbn. repeat (constructor; try lia).
  - vm_compute. discriminate.
  - vm_compute. right. now left.
  - now left.
  - now left.
Defined.

(** ** Binary64 rounding

    What is needed of binary64 arithmetic to bound the jitter factor: a
    right shift divides the mantissa, rounding to nearest moves it by at
    most one, and the number of digits is fixed by the enclosing powers of
    two. *)

Lemma iter_pos_nat {A} (f : A -> A) (p : positive) : forall x,
  iter_pos f p x = Nat.iter (Pos.to_nat p) f x.
Proof.
  induction p as [p IH | p IH |]; intros x; cbn [iter_pos].
  - rewrite !IH, Pos2Nat.inj_xI, <- Nat.iter_add, <- Nat.iter_succ_r.
    f_equal. lia.
  - rewrite !IH, Pos2Nat.inj_xO, <- Nat.iter_add. f_equal. lia.
  - reflexivity.
Qed.

Lemma shr_1_m (mrs : shr_record) :
  0 <= shr_m mrs -> shr_m (shr_1 mrs) = Z.div2 (shr_m mrs).
Proof.
  destruct mrs as [[|[p|p|]|p] r s]; cbn; intros H; try reflexivity; lia.
Qed.

Lemma shr_iter_m (n : nat) : forall mrs,
  0 <= shr_m mrs ->
  shr_m (Nat.iter n shr_1 mrs) = shr_m mrs / 2 ^ Z.of_nat n.
Proof.
  induction n as [|n IH]; intros mrs H.
  - cbn. now rewrite Z.div_1_r.
  - rewrite Nat.iter_succ_r, IH.
    + rewrite shr_1_m by assumption.
      rewrite Z.div2_div, Z.div_div by lia.
      f_equal. rewrite Nat2Z.inj_succ, Z.pow_succ_r by lia. reflexivity.
    + rewrite shr_1_m by assumption. rewrite Z.div2_div.
      apply Z.div_pos; lia.
Qed.

Lemma shr_iter_exact (n : nat) : forall q,
  0 <= q ->
  Nat.iter n shr_1 (Build_shr_record (q * 2 ^ Z.of_nat n) false false) =
  Build_shr_record q false false.
Proof.
  induction n as [|n IH]; intros q H.
  - cbn. now rewrite Z.mul_1_r.
  - rewrite Nat.iter_succ_r, Nat2Z.inj_succ, Z.pow_succ_r by lia.
    replace (q * (2 * 2 ^ Z.of_nat n)) with (2 * (q * 2 ^ Z.of_nat n)) by lia.
    assert (Hq : 0 <= q * 2 ^ Z.of_nat n) by (apply Z.mul_nonneg_nonneg; lia).
    destruct (q * 2 ^ Z.of_nat n) as [|p|p] eqn:E; [| | lia].
    + cbn [shr_1 Z.mul orb]. rewrite <- E. now apply IH.
    + cbn [shr_1 Z.mul Pos.mul orb]. rewrite <- E. now apply IH.
Qed.

(** Shifting a non-negative mantissa right by [n] places divides it by
    [2 ^ n]. *)
Lemma shr_m_div (M e n : Z) :
  0 <= M -> 0 <= n ->
  shr_m (fst (shr (Build_shr_record M false false) e n)) = M / 2 ^ n /\
  snd (shr (Build_shr_record M false false) e n) = e + n.
Proof.
  intros HM Hn. destruct n as [|p|p]; [| | lia]; cbn [shr fst snd shr_m].
  - rewrite Z.div_1_r. lia.
  - rewrite iter_pos_nat, shr_iter_m by assumption.
    now rewrite positive_nat_Z.
Qed.

Lemma shr_exact (q e n : Z) :
  0 <= q -> 0 <= n ->
  shr (Build_shr_record (q * 2 ^ n) false false) e n =
  (Build_shr_record q false false, e + n).
Proof.
  intros Hq Hn. destruct n as [|p|p]; [| | lia]; cbn [shr].
  - now rewrite Z.mul_1_r, Z.add_0_r.
  - rewrite iter_pos_nat. rewrite <- (positive_nat_Z p) at 1.
    now rewrite shr_iter_exact.
Qed.

Lemma round_nearest_even_bounds (m : Z) (l : location) :
  m <= round_nearest_even m l <= m + 1.
Proof.
  destruct l as [|[| |]]; cbn; try destruct (Z.even m); lia.
Qed.

Lemma digits2_pos_bounds (p : positive) :
  2 ^ (Z.pos (digits2_pos p) - 1) <= Z.pos p < 2 ^ Z.pos (digits2_pos p).
Proof.
  induction p as [p IH | p IH |]; cbn [digits2_pos].
  - rewrite Pos2Z.inj_succ, (Pos2Z.inj_xI p).
    replace (Z.succ (Z.pos (digits2_pos p)) - 1)
      with (Z.succ (Z.pos (digits2_pos p) - 1)) by lia.
    rewrite !Z.pow_succ_r by lia.
    revert IH. generalize (2 ^ (Z.pos (digits2_pos p) - 1)).
    generalize (2 ^ Z.pos (digits2_pos p)). intros a b [H1 H2]. lia.
  - rewrite Pos2Z.inj_succ, (Pos2Z.inj_xO p).
    replace (Z.succ (Z.pos (digits2_pos p)) - 1)
      with (Z.succ (Z.pos (digits2_pos p) - 1)) by lia.
    rewrite !Z.pow_succ_r by lia.
    revert IH. generalize (2 ^ (Z.pos (digits2_pos p) - 1)).
    generalize (2 ^ Z.pos (digits2_pos p)). intros a b [H1 H2]. lia.
  - cbn. lia.
Qed.

(** The number of binary digits of a positive integer is determined by the
    powers of two that enclose it. *)
Lemma Zdigits2_unique (M d : Z) :
  2 ^ (d - 1) <= M < 2 ^ d -> 0 < M -> Zdigits2 M = d.
Proof.
  intros [Hlo Hhi] HM. destruct M as [|p|p]; try lia. cbn [Zdigits2].
  pose proof (digits2_pos_bounds p) as [Hlo' Hhi'].
  set (d' := Z.pos (digits2_pos p)) in *.
  assert (Hd : 0 <= d).
  { destruct (Z.le_gt_cases 0 d); [assumption |].
    rewrite Z.pow_neg_r in Hhi by lia. lia. }
  destruct (Z.lt_trichotomy d' d) as [H | [H | H]]; [| assumption |].
  - assert (2 ^ d' <= 2 ^ (d - 1)) by (apply Z.pow_le_mono_r; lia). lia.
  - assert (2 ^ d <= 2 ^ (d' - 1)) by (apply Z.pow_le_mono_r; lia). lia.
Qed.

Lemma fexp64_eq z : fexp64 z = Z.max (z - 53) (-1074).
Proof. reflexivity. Qed.

Lemma round_aux_inexact (M e : Z) :
  0 < M -> 0 <= fexp64 (Zdigits2 M + e) - e ->
  exists m2,
    M / 2 ^ (fexp64 (Zdigits2 M + e) - e) <= m2 <=
      M / 2 ^ (fexp64 (Zdigits2 M + e) - e) + 1 /\
    binary_round_aux prec emax false M e loc_Exact =
      finish m2 (fexp64 (Zdigits2 M + e)).
Proof.
  intros HM Hn. unfold binary_round_aux, finish.
  unfold shr_fexp at 1. fold (fexp64 (Zdigits2 M + e)). cbn [shr_record_of_loc].
  destruct (shr_m_div M e (fexp64 (Zdigits2 M + e) - e)) as [Hm He];
    [lia | assumption |].
  destruct (shr _ e _) as [mrs' e']. cbn [fst snd] in Hm, He.
  exists (round_nearest_even (shr_m mrs') (loc_of_shr_record mrs')).
  split.
  - rewrite <- Hm. apply round_nearest_even_bounds.
  - subst e'. replace (e + (fexp64 (Zdigits2 M + e) - e))
      with (fexp64 (Zdigits2 M + e)) by lia. reflexivity.
Qed.

Lemma round_aux_exact (q e n : Z) :
  0 <= q -> 0 <= n ->
  fexp64 (Zdigits2 (q * 2 ^ n) + e) - e = n ->
  binary_round_aux prec emax false (q * 2 ^ n) e loc_Exact = finish q (e + n).
Proof.
  intros Hq Hn Hfexp. unfold binary_round_aux, finish.
  unfold shr_fexp at 1. fold (fexp64 (Zdigits2 (q * 2 ^ n) + e)).
  rewrite Hfexp. cbn [shr_record_of_loc]. rewrite shr_exact by assumption.
  reflexivity.
Qed.

Lemma finish_canonical (m e : Z) :
  0 < m -> fexp64 (Zdigits2 m + e) <= e -> e <= 971 ->
  finish m e = S754_finite false (Z.to_pos m) e.
Proof.
  intros Hm Hfexp He. unfold finish, shr_fexp. fold (fexp64 (Zdigits2 m + e)).
  cbn [shr_record_of_loc].
  destruct (fexp64 (Zdigits2 m + e) - e) as [|p|p] eqn:E; [| lia |];
    cbn [shr shr_m]; destruct m as [|m|m]; try lia;
    assert (Hle : (e <=? emax - prec) = true) by (apply Z.leb_le; cbn; lia);
    now rewrite Hle.
Qed.

Lemma finish_zero (e : Z) : -1074 <= e -> finish 0 e = S754_zero false.
Proof.
  intros He. unfold finish, shr_fexp. fold (fexp64 (Zdigits2 0 + e)).
  cbn [shr_record_of_loc Zdigits2]. rewrite fexp64_eq.
  destruct (Z.max (0 + e - 53) (-1074) - e) as [|p|p] eqn:E; [| lia |];
    reflexivity.
Qed.

Lemma pos_iter_xO (c d : positive) :
  Z.pos (Pos.iter xO c d) = Z.pos c * 2 ^ Z.pos d.
Proof.
  induction d as [|d IH] using Pos.peano_ind.
  - cbn [Pos.iter]. rewrite (Pos2Z.inj_xO c). lia.
  - rewrite Pos.iter_succ, (Pos2Z.inj_xO (Pos.iter xO c d)), IH.
    rewrite Pos2Z.inj_succ, Z.pow_succ_r by lia. lia.
Qed.

Lemma binary_round_aligned (M : positive) (e : Z) :
  e <= fexp64 (Z.pos (digits2_pos M) + e) ->
  binary_round prec emax false M e =
  binary_round_aux prec emax false (Z.pos M) e loc_Exact.
Proof.
  intros H. unfold binary_round, shl_align.
  fold (fexp64 (Z.pos (digits2_pos M) + e)).
  destruct (fexp64 (Z.pos (digits2_pos M) + e) - e) eqn:E; try reflexivity.
  lia.
Qed.

Lemma SFleb_same_exponent (a b : positive) (e : Z) :
  (Z.pos a <= Z.pos b) ->
  SFleb (S754_finite false a e) (S754_finite false b e) = true.
Proof.
  intros H. unfold SFleb, SFcompare. rewrite Z.compare_refl.
  change (Pos.compare_cont Eq a b) with (a ?= b)%positive.
  destruct (Pos.compare_spec a b); try reflexivity. lia.
Qed.

Lemma SFleb_lower_exponent (a b : positive) (e1 e2 : Z) :
  e1 < e2 ->
  SFleb (S754_finite false a e1) (S754_finite false b e2) = true.
Proof.
  intros H. unfold SFleb, SFcompare. apply Z.compare_lt_iff in H.
  now rewrite H.
Qed.

(** Rounding a value of [[0.75, 1.25)] to binary64 gives a double of
    [[0.75, 1.25]]. *)
Lemma round_between (M : positive) (e d : Z) :
  1 <= d -> e = -53 - d ->
  6755399441055744 * 2 ^ d <= Z.pos M < 11258999068426240 * 2 ^ d ->
  SFleb c075 (binary_round prec emax false M e) = true /\
  SFleb (binary_round prec emax false M e) c125 = true.
Proof.
  intros Hd He HM.
  assert (HP : 2 <= 2 ^ d).
  { change 2 with (2 ^ 1) at 1. apply Z.pow_le_mono_r; lia. }
  assert (Hpow52 : 2 ^ (52 + d) = 4503599627370496 * 2 ^ d)
    by (rewrite Z.pow_add_r by lia; reflexivity).
  assert (Hpow53 : 2 ^ (53 + d) = 9007199254740992 * 2 ^ d)
    by (rewrite Z.pow_add_r by lia; reflexivity).
  assert (Hpow54 : 2 ^ (54 + d) = 18014398509481984 * 2 ^ d)
    by (rewrite Z.pow_add_r by lia; reflexivity).
  assert (Hpow1 : 2 ^ (d + 1) = 2 * 2 ^ d)
    by (rewrite Z.pow_add_r by lia; lia).
  destruct (Z.lt_ge_cases (Z.pos M) (9007199254740992 * 2 ^ d)) as [Hlt | Hge].
  - assert (Hdig : Zdigits2 (Z.pos M) = 53 + d).
    { apply Zdigits2_unique; [| lia].
      replace (53 + d - 1) with (52 + d) by lia. rewrite Hpow52, Hpow53. lia. }
    cbn [Zdigits2] in Hdig.
    rewrite binary_round_aligned by (rewrite Hdig, fexp64_eq; lia).
    destruct (round_aux_inexact (Z.pos M) e) as [m2 [Hm2 ->]];
      [lia | cbn [Zdigits2]; rewrite Hdig, fexp64_eq; lia |].
    cbn [Zdigits2] in *. rewrite Hdig in *.
    replace (53 + d + e) with 0 in * by lia.
    change (fexp64 0) with (-53) in *.
    replace (-53 - e) with d in Hm2 by lia.
    assert (Hlo : 6755399441055744 <= Z.pos M / 2 ^ d)
      by (apply Z.div_le_lower_bound; lia).
    assert (Hhi : Z.pos M / 2 ^ d < 9007199254740992)
      by (apply Z.div_lt_upper_bound; lia).
    destruct (Z.eq_dec m2 9007199254740992) as [-> | Hne].
    + split; reflexivity.
    + rewrite finish_canonical; [| lia | | lia].
      * split.
        -- apply SFleb_same_exponent. rewrite Z2Pos.id by lia. lia.
        -- now apply SFleb_lower_exponent.
      * rewrite (Zdigits2_unique m2 53); [rewrite fexp64_eq; lia | | lia].
        change (2 ^ (53 - 1)) with 4503599627370496.
        change (2 ^ 53) with 9007199254740992. lia.
  - assert (Hdig : Zdigits2 (Z.pos M) = 54 + d).
    { apply Zdigits2_unique; [| lia].
      replace (54 + d - 1) with (53 + d) by lia. rewrite Hpow53, Hpow54. lia. }
    cbn [Zdigits2] in Hdig.
    rewrite binary_round_aligned by (rewrite Hdig, fexp64_eq; lia).
    destruct (round_aux_inexact (Z.pos M) e) as [m2 [Hm2 ->]];
      [lia | cbn [Zdigits2]; rewrite Hdig, fexp64_eq; lia |].
    cbn [Zdigits2] in *. rewrite Hdig in *.
    replace (54 + d + e) with 1 in * by lia.
    change (fexp64 1) with (-52) in *.
    replace (-52 - e) with (d + 1) in Hm2 by lia. rewrite Hpow1 in Hm2.
    assert (Hlo : 4503599627370496 <= Z.pos M / (2 * 2 ^ d))
      by (apply Z.div_le_lower_bound; lia).
    assert (Hhi : Z.pos M / (2 * 2 ^ d) < 5629499534213120)
      by (apply Z.div_lt_upper_bound; lia).
    rewrite finish_canonical; [| lia | | lia].
    + split.
      * now apply SFleb_lower_exponent.
      * apply SFleb_same_exponent. rewrite Z2Pos.id by lia. lia.
    + rewrite (Zdigits2_unique m2 53); [rewrite fexp64_eq; lia | | lia].
      change (2 ^ (53 - 1)) with 4503599627370496.
      change (2 ^ 53) with 9007199254740992. lia.
Qed.

Lemma add_three_quarters_finite (my : positive) (ey : Z) :
  -1074 <= ey <= -54 -> Z.pos my < 2 ^ 53 ->
  SFleb c075 (SF64add c075 (S754_finite false my ey)) = true /\
  SFleb (SF64add c075 (S754_finite false my ey)) c125 = true.
Proof.
  intros He Hm. unfold SF64add, SFadd, c075. cbn [cond_Zopp].
  rewrite Z.min_r by lia.
  unfold shl_align. rewrite Z.sub_diag. cbn [fst].
  destruct (ey - -53) as [|d|d] eqn:Ed; try lia. cbn [fst Z.add].
  unfold binary_normalize.
  assert (HP : 2 <= 2 ^ Z.pos d).
  { change 2 with (2 ^ 1) at 1. apply Z.pow_le_mono_r; lia. }
  change (2 ^ 53) with 9007199254740992 in Hm.
  apply (round_between _ ey (Z.pos d)); [lia | lia |].
  rewrite Pos2Z.inj_add, pos_iter_xO. lia.
Qed.

Lemma Zdigits2_le (M d : Z) : 0 < M < 2 ^ d -> Zdigits2 M <= d.
Proof.
  intros [HM Hd]. destruct M as [|p|p]; try lia. cbn [Zdigits2].
  pose proof (digits2_pos_bounds p) as [Hlo _].
  destruct (Z.le_gt_cases (Z.pos (digits2_pos p)) d) as [H | H]; [assumption |].
  assert (2 ^ d <= 2 ^ (Z.pos (digits2_pos p) - 1)).
  { apply Z.pow_le_mono_r; [lia |].
    destruct (Z.le_gt_cases 0 d); [lia |].
    rewrite Z.pow_neg_r in Hd by lia. lia. }
  lia.
Qed.

Lemma canonical_shape (m : positive) (e : Z) :
  bounded prec emax m e = true ->
  -1074 <= e /\ Z.pos (digits2_pos m) <= 53 /\
  (Z.pos (digits2_pos m) = 53 \/ e = -1074).
Proof.
  unfold bounded, canonical_mantissa. intros H.
  apply andb_true_iff in H. destruct H as [H _].
  apply Z.eqb_eq in H. fold (fexp64 (Z.pos (digits2_pos m) + e)) in H.
  rewrite fexp64_eq in H. lia.
Qed.

(** Half of a double of [[0, 1)] is zero or a double below one half. *)
Lemma mul_half (m : positive) (e : Z) :
  bounded prec emax m e = true -> e <= -53 ->
  belowHalf (SF64mul (S754_finite false m e) c05).
Proof.
  intros Hb He. destruct (canonical_shape m e Hb) as [Hemin [Hdm Hnorm]].
  pose proof (digits2_pos_bounds m) as [Hmlo Hmhi].
  unfold SF64mul, SFmul, c05. cbn [xorb].
  rewrite Pos2Z.inj_mul. change (Z.pos 4503599627370496) with (2 ^ 52).
  assert (Hdig : Zdigits2 (Z.pos m * 2 ^ 52) = Z.pos (digits2_pos m) + 52).
  { apply Zdigits2_unique; [| lia].
    replace (Z.pos (digits2_pos m) + 52 - 1)
      with (Z.pos (digits2_pos m) - 1 + 52) by lia.
    rewrite !Z.pow_add_r by lia. lia. }
  destruct (Z.eq_dec e (-1074)) as [-> | Hne].
  - destruct (round_aux_inexact (Z.pos m * 2 ^ 52) (-1074 + -53))
      as [m2 [Hm2 ->]]; [lia | rewrite Hdig, fexp64_eq; lia |].
    rewrite Hdig, fexp64_eq in *.
    replace (Z.max (Z.pos (digits2_pos m) + 52 + (-1074 + -53) - 53) (-1074))
      with (-1074) in * by lia.
    change (-1074 - (-1074 + -53)) with (52 + 1) in Hm2.
    rewrite Z.pow_add_r, <- Z.div_div, Z.div_mul in Hm2 by lia.
    change (2 ^ 1) with 2 in Hm2.
    assert (Hm53 : Z.pos m < 2 ^ 53).
    { eapply Z.lt_le_trans; [exact Hmhi |]. apply Z.pow_le_mono_r; lia. }
    change (2 ^ 53) with 9007199254740992 in Hm53.
    assert (0 <= Z.pos m / 2 < 4503599627370496).
    { split; [apply Z.div_pos; lia | apply Z.div_lt_upper_bound; lia]. }
    destruct (Z.eq_dec m2 0) as [-> | Hpos].
    + left. exists false. now apply finish_zero.
    + right. exists (Z.to_pos m2), (-1074).
      assert (Hd2 : Zdigits2 m2 <= 53).
      { apply Zdigits2_le. change (2 ^ 53) with 9007199254740992. lia. }
      rewrite finish_canonical; [| lia | rewrite fexp64_eq; lia | lia].
      repeat split; lia.
  - assert (Hd53 : Z.pos (digits2_pos m) = 53) by lia.
    rewrite round_aux_exact;
      [| lia | lia | rewrite Hdig, Hd53, fexp64_eq; lia].
    right. exists m, (e + -53 + 52).
    rewrite finish_canonical;
      [| lia | cbn [Zdigits2]; rewrite Hd53, fexp64_eq; lia | lia].
    repeat split; try lia. now rewrite Hd53 in Hmhi.
Qed.

Lemma SFltb_finite (m m' : positive) (e e' : Z) :
  SFltb (S754_finite false m e) (S754_finite false m' e') = true ->
  e < e' \/ (e = e' /\ Z.pos m < Z.pos m').
Proof.
  unfold SFltb, SFcompare.
  destruct (Z.compare_spec e e') as [-> | H | H]; [| now left | discriminate].
  fold (Pos.compare m m').
  destruct (Pos.compare_spec m m') as [| Hm |]; try discriminate.
  intros _. right. split; [reflexivity | lia].
Qed.

Lemma unit_interval_shape (x : spec_float) :
  valid_binary x = true ->
  SFleb (S754_zero false) x = true ->
  SFltb x c1 = true ->
  (exists s, x = S754_zero s) \/
  (exists m e, x = S754_finite false m e /\
               bounded prec emax m e = true /\ e <= -53).
Proof.
  destruct x as [s | s | | s m e]; cbn [valid_binary]; intros Hv Hle Hlt.
  - left. now exists s.
  - destruct s; discriminate.
  - discriminate.
  - destruct s; [discriminate |].
    right. exists m, e. repeat split; [assumption |].
    apply SFltb_finite in Hlt. destruct Hlt as [Hlt | [-> Hlt]]; [lia |].
    destruct (canonical_shape m (-52) Hv) as [_ [_ [Hd | Hd]]]; [| lia].
    pose proof (digits2_pos_bounds m) as [Hlo _]. rewrite Hd in Hlo.
    change (2 ^ (53 - 1)) with 4503599627370496 in Hlo. lia.
Qed.

Lemma jitter_spec_bounds (x : spec_float) :
  valid_binary x = true ->
  SFleb (S754_zero false) x = true ->
  SFltb x c1 = true ->
  SFleb c075 (SF64add c075 (SF64mul x c05)) = true /\
  SFleb (SF64add c075 (SF64mul x c05)) c125 = true.
Proof.
  intros Hv Hle Hlt.
  destruct (unit_interval_shape x Hv Hle Hlt)
    as [[s ->] | [m [e [-> [Hb He]]]]].
  - destruct s; split; reflexivity.
  - destruct (mul_half m e Hb He) as [[s ->] | [my [ey [-> [Hey Hmy]]]]].
    + destruct s; split; reflexivity.
    + now apply add_three_quarters_finite.
Qed.

Lemma constants_spec :
  Prim2SF 0 = S754_zero false /\ Prim2SF 1 = c1 /\ Prim2SF 0.5 = c05 /\
  Prim2SF 0.75 = c075 /\ Prim2SF 1.25 = c125.
Proof. repeat split. Qed.

Theorem jitter_bounds (r : float) :
  (0 <=? r)%float = true -> (r <? 1)%float = true ->
  (0.75 <=? jitter r)%float = true /\ (jitter r <=? 1.25)%float = true.
Proof.
  destruct constants_spec as [H0 [H1 [H05 [H075 H125]]]].
  rewrite !leb_spec, ltb_spec. unfold jitter.
  rewrite add_spec, mul_spec, H0, H1, H05, H075, H125.
  apply jitter_spec_bounds, Prim2SF_valid.
Qed.

(** A mantissa that is already canonical is left as it is. *)
Lemma round_aux_canonical (m : positive) (e : Z) :
  fexp64 (Z.pos (digits2_pos m) + e) = e -> e <= 971 ->
  binary_round_aux prec emax false (Z.pos m) e loc_Exact = S754_finite false m e.
Proof.
  intros Hc He.
  replace (Z.pos m) with (Z.pos m * 2 ^ 0) at 1 by (cbn; lia).
  rewrite round_aux_exact; [| lia | lia |].
  - rewrite Z.add_0_r. rewrite finish_canonical; [reflexivity | lia | | lia].
    cbn [Zdigits2]. lia.
  - replace (Z.pos m * 2 ^ 0) with (Z.pos m) by (cbn; lia).
    cbn [Zdigits2]. lia.
Qed.

Lemma canonical_bounded (m : positive) (e : Z) :
  fexp64 (Z.pos (digits2_pos m) + e) = e -> e <= 971 ->
  bounded prec emax m e = true.
Proof.
  intros Hc He. unfold bounded, canonical_mantissa.
  fold (fexp64 (Z.pos (digits2_pos m) + e)). rewrite Hc, Z.eqb_refl.
  apply Z.leb_le. cbn. lia.
Qed.

(** Multiplying a normal double by a power of two only moves its
    exponent, as long as the result is a normal double too. *)
Lemma mul_pow2 (m : positive) (e k : Z) :
  Z.pos (digits2_pos m) = 53 ->
  -1074 <= e + k + 52 <= 971 ->
  SF64mul (S754_finite false m e) (S754_finite false 4503599627370496 k) =
  S754_finite false m (e + k + 52).
Proof.
  intros Hd He. unfold SF64mul, SFmul. cbn [xorb].
  rewrite Pos2Z.inj_mul. change (Z.pos 4503599627370496) with (2 ^ 52).
  pose proof (digits2_pos_bounds m) as [Hlo Hhi]. rewrite Hd in Hlo, Hhi.
  assert (Hdig : Zdigits2 (Z.pos m * 2 ^ 52) = 105).
  { apply Zdigits2_unique; [| lia].
    change (2 ^ (105 - 1)) with (2 ^ (53 - 1) * 2 ^ 52).
    change (2 ^ 105) with (2 ^ 53 * 2 ^ 52). lia. }
  rewrite round_aux_exact; [| lia | lia | rewrite Hdig, fexp64_eq; lia].
  rewrite finish_canonical;
    [| lia | cbn [Zdigits2]; rewrite Hd, fexp64_eq; lia | lia].
  reflexivity.
Qed.

Lemma pow2_spec (n : Z) :
  -1022 <= n <= 1023 ->
  Prim2SF (pow2 n) = S754_finite false 4503599627370496 (n - 52).
Proof.
  intros Hn. unfold pow2.
  assert (E : binary_normalize prec emax 1 n false =
              S754_finite false 4503599627370496 (n - 52)).
  { unfold binary_normalize, binary_round, shl_align.
    cbn [digits2_pos]. fold (fexp64 (1 + n)). rewrite fexp64_eq.
    replace (Z.max (1 + n - 53) (-1074) - n) with (-52) by lia.
    cbn [Pos.iter]. 
    replace (Z.max (1 + n - 53) (-1074)) with (n - 52) by lia.
    apply round_aux_canonical; [| lia].
    change (Z.pos (digits2_pos 4503599627370496)) with 53.
    rewrite fexp64_eq. lia. }
  rewrite E. apply Prim2SF_SF2Prim.
  apply canonical_bounded; [| lia].
  change (Z.pos (digits2_pos 4503599627370496)) with 53.
  rewrite fexp64_eq. lia.
Qed.

Lemma digits2_pos_iter (b d : positive) :
  digits2_pos (Pos.iter xO b d) = (digits2_pos b + d)%positive.
Proof.
  induction d as [|d IH] using Pos.peano_ind.
  - cbn [Pos.iter digits2_pos]. lia.
  - rewrite Pos.iter_succ. cbn [digits2_pos]. rewrite IH. lia.
Qed.

(** A positive integer below [2 ^ 53] is a double: a 53-bit mantissa and
    an exponent between -52 and 0. *)
Lemma ofZ_spec (B : Z) :
  0 < B < 2 ^ 53 ->
  exists m e,
    Prim2SF (ofZ B) = S754_finite false m e /\
    Z.pos (digits2_pos m) = 53 /\ -52 <= e <= 0 /\
    Z.pos m = B * 2 ^ (- e).
Proof.
  intros [HB0 HB]. destruct B as [|b|b]; try lia.
  assert (Hdb : Z.pos (digits2_pos b) <= 53)
    by (apply (Zdigits2_le (Z.pos b)); lia).
  assert (Hnorm : forall m e,
            Z.pos (digits2_pos m) = 53 -> -52 <= e <= 0 ->
            binary_round_aux prec emax false (Z.pos m) e loc_Exact =
              S754_finite false m e /\
            bounded prec emax m e = true).
  { intros m e Hm He. split.
    - apply round_aux_canonical; [rewrite Hm, fexp64_eq |]; lia.
    - apply canonical_bounded; [rewrite Hm, fexp64_eq |]; lia. }
  unfold ofZ, binary_normalize, binary_round, shl_align.
  fold (fexp64 (Z.pos (digits2_pos b) + 0)). rewrite fexp64_eq.
  destruct (Z.max (Z.pos (digits2_pos b) + 0 - 53) (-1074) - 0)
    as [|d|d] eqn:E; try lia.
  - destruct (Hnorm b 0) as [-> Hv]; [lia | lia |].
    exists b, 0. rewrite Prim2SF_SF2Prim by assumption.
    repeat split; try lia.
  - assert (Hd : Z.pos (digits2_pos (Pos.iter xO b d)) = 53)
      by (rewrite digits2_pos_iter; lia).
    destruct (Hnorm (Pos.iter xO b d)
                (Z.max (Z.pos (digits2_pos b) + 0 - 53) (-1074)))
      as [-> Hv]; [assumption | lia |].
    exists (Pos.iter xO b d), (Z.max (Z.pos (digits2_pos b) + 0 - 53) (-1074)).
    rewrite Prim2SF_SF2Prim by assumption.
    repeat split; try lia.
    rewrite pos_iter_xO. f_equal. f_equal. lia.
Qed.

Lemma two_spec : Prim2SF 2 = S754_finite false 4503599627370496 (-51).
Proof. reflexivity. Qed.

(** Without the jitter, the delay of an attempt is twice that of the
    attempt before. *)
Lemma base_delay_doubles (B attempt : Z) :
  0 < B < 2 ^ 53 -> 1 <= attempt <= 900 ->
  (ofZ B * pow2 attempt)%float = (ofZ B * pow2 (attempt - 1) * 2)%float.
Proof.
  intros HB Ha. apply Prim2SF_inj.
  rewrite !mul_spec, !pow2_spec, two_spec by lia.
  destruct (ofZ_spec B HB) as [m [e [-> [Hd [He _]]]]].
  rewrite !mul_pow2 by (assumption || lia).
  f_equal. lia.
Qed.

(** ** The backoff delay *)

(** C8, as stated, fails: for the draw [1 - 2^-52], which lies in [[0, 1)],
    the sum [0.75 + r * 0.5] is rounded to 1.25 itself, so the jitter
    factor is not below 1.25, and the first delay is the full
    [1200 * 1.25 = 1500] ms. *)
Lemma jitter_reaches_upper_bound :
  (0 <=? largestDraw)%float = true /\
  (largestDraw <? 1)%float = true /\
  (0.75 + largestDraw * 0.5)%float = 1.25%float /\
  (0.75 + largestDraw * 0.5 <? 1.25)%float = false /\
  backoffDelay defaultEnv 1 largestDraw = 1500%float.
Proof. repeat split. Qed.

(** C8, amended: before the retry that follows attempt number [attempt],
    the request sleeps for exactly
    [Math.round(BASE_DELAY_MS * 2^(attempt-1) * (0.75 + r*0.5))] ms, computed
    in double arithmetic, where [r] is the random draw in [[0, 1)]; the
    jitter factor [0.75 + r*0.5] lies in the closed interval
    [[0.75, 1.25]]; and the delay doubles per attempt up to jitter: the
    factor [BASE_DELAY_MS * 2^(attempt-1)] that the jitter multiplies is,
    at the next attempt, exactly twice as large. *)
Theorem backoff_delay_jittered :
  forall penv st promptText modelName attempt t r err,
    hasRetrySignature (errText err) ->
    attempt <> MAX_ATTEMPTS penv ->
    (0 <=? r)%float = true ->
    (r <? 1)%float = true ->
    let factor := (0.75 + r * 0.5)%float in
    let base := fun n => (ofZ (BASE_DELAY_MS penv) * pow2 (n - 1))%float in
    step penv st (AwaitModel promptText modelName attempt)
      {| now := t; outcome := Rejected err; random := r |} =
      (st, Backoff promptText modelName attempt err,
       [Sleep (Math_round (base attempt * factor))]) /\
    (0.75 <=? factor)%float = true /\
    (factor <=? 1.25)%float = true /\
    (BASE_DELAY_MS penv < 2 ^ 53 -> 1 <= attempt <= 900 ->
     base (attempt + 1) = (base attempt * 2)%float).
Proof.
  intros penv st promptText modelName attempt t r err Hsig Hlast Hr0 Hr1
         factor base.
  split; [| split; [| split]].
  - apply shouldRetry_signature in Hsig. cbn [step]. unfold settle.
    cbn [outcome random]. now rewrite catchAttempt_retry.
  - now apply jitter_bounds.
  - now apply jitter_bounds.
  - intros HB Ha. unfold base.
    replace (attempt + 1 - 1) with attempt by lia.
    apply base_delay_doubles; [| assumption].
    split; [| assumption]. unfold BASE_DELAY_MS. lia.
Qed.

Lemma backoff_delay_jittered_example :
  step threeAttemptsEnv (setGenerating true initialState)
    (AwaitModel (lit "calm piano") (lit "lyria-002") 2)
    {| now := 1700000002000;
       outcome := Rejected (newError "429 Too Many Requests");
       random := 0.5%float |} =
    (setGenerating true initialState,
     Backoff (lit "calm piano") (lit "lyria-002") 2
       (newError "429 Too Many Requests"),
     [Sleep 2400]) /\
  (0.75 <=? 1)%float = true /\
  (1 <=? 1.25)%float = true /\
  (1200 < 2 ^ 53 -> 1 <= 2 <= 900 -> 4800%float = 4800%float).
Proof.
  refine (backoff_delay_jittered threeAttemptsEnv
            (setGenerating true initialState) (lit "calm piano")
            (lit "lyria-002") 2 1700000002000 0.5%float
            (newError "429 Too Many Requests") _ _ eq_refl eq_refl).
  - exists (lit "429"). split; [now left |].
    now exists [], (lit " Too Many Requests").
  - discriminate.
Defined.

(** * Further properties of the handlers *)

(** ** Validation, case by case *)

(** The first segment, spelled out by cases. *)
Lemma arrive_table penv st t rq :
  (isGenerating st = true /\
   arrive penv st t rq = (st, Done, [busy penv st t])) \/
  (isGenerating st = false /\
   (forall s, rq_prompt rq = JStr s -> s = []) /\
   arrive penv st t rq =
     (st, Done, [respond 400 (ErrorBody (lit "Invalid prompt"))])) \/
  (isGenerating st = false /\
   exists s, rq_prompt rq = JStr s /\ s <> [] /\
     ((JsString.length (trim s) = 0 /\
       arrive penv st t rq =
         (st, Done, [respond 400 (ErrorBody (lit "Prompt cannot be empty"))])) \/
      (500 < JsString.length (trim s) /\
       arrive penv st t rq =
         (st, Done,
          [respond 400 (ErrorBody (lit "Prompt is too long (max 500 chars)"))])) \/
      (1 <= JsString.length (trim s) <= 500 /\
       t - lastCallAtMs st < MIN_INTERVAL_MS penv /\
       arrive penv st t rq =
         (setGenerating true st, Pacing (trim s) (chosenModel penv rq),
          [Sleep (ofZ (MIN_INTERVAL_MS penv - (t - lastCallAtMs st)))])) \/
      (1 <= JsString.length (trim s) <= 500 /\
       MIN_INTERVAL_MS penv <= t - lastCallAtMs st /\
       arrive penv st t rq =
         (setGenerating true st, AwaitModel (trim s) (chosenModel penv rq) 1,
          [Dispatch (chosenModel penv rq) (requestText (trim s))])))).
Proof.
  destruct (isGenerating st) eqn:Hg.
  - left. split; [reflexivity |]. unfold arrive. now rewrite Hg.
  - right. destruct (rq_prompt rq) as [| | b | n | s |] eqn:Hp;
      try (left; split; [reflexivity |]; split; [intros s' [=] |];
           unfold arrive; rewrite Hg, Hp; reflexivity).
    + left. split; [reflexivity |]. split; [intros s' [=] |].
      unfold arrive. rewrite Hg, Hp. cbn. now rewrite orb_true_r.
    + left. split; [reflexivity |]. split; [intros s' [=] |].
      unfold arrive. rewrite Hg, Hp. cbn. now rewrite orb_true_r.
    + destruct s as [|c s'].
      * left. split; [reflexivity |]. split; [now intros s0 [= <-] |].
        unfold arrive. now rewrite Hg, Hp.
      * right. split; [reflexivity |]. exists (c :: s').
        split; [reflexivity |]. split; [discriminate |].
        pose proof (Zle_0_nat (List.length (trim (c :: s')))) as Hnn.
        fold (JsString.length (trim (c :: s'))) in Hnn.
        destruct (Z.eq_dec (JsString.length (trim (c :: s'))) 0) as [E0 | E0].
        -- left. split; [assumption |]. unfold arrive. rewrite Hg, Hp.
           cbn [val_truthy typeof_string val_string truthy negb orb].
           now rewrite E0.
        -- right.
           destruct (Z_lt_le_dec 500 (JsString.length (trim (c :: s'))))
             as [Hlong | Hok].
           ++ left. split; [assumption |]. unfold arrive. rewrite Hg, Hp.
              cbn [val_truthy typeof_string val_string truthy negb orb].
              apply Z.eqb_neq in E0. rewrite E0.
              apply Z.gtb_lt in Hlong. now rewrite Hlong.
           ++ right.
              destruct (Z_lt_le_dec (t - lastCallAtMs st) (MIN_INTERVAL_MS penv))
                as [Hsoon | Hlate].
              ** left. split; [lia |]. split; [assumption |].
                 apply arrive_pacing; (assumption || lia).
              ** right. split; [lia |]. split; [assumption |].
                 apply arrive_direct; (assumption || lia).
Qed.

(** Closes a goal whose hypothesis [H] equates two different results. *)
Ltac clash H :=
  try discriminate H;
  try (injection H; intros; subst; try discriminate; try lia; fail);
  try (injection H; vm_compute; intros; discriminate).

(** X1: with the flag down, a string prompt is answered 400 with
    [Prompt is too long (max 500 chars)], the state untouched, exactly when
    its trimmed length exceeds 500 code units. *)
Theorem overlong_prompt_rejected :
  forall penv st w rq s,
    isGenerating st = false ->
    rq_prompt rq = JStr s ->
    (500 < JsString.length (trim s) <->
     step penv st (Arrived rq) w =
       (st, Done,
        [respond 400 (ErrorBody (lit "Prompt is too long (max 500 chars)"))])).
Proof.
  intros penv st w rq s Hg Hp. cbn [step].
  destruct (arrive_table penv st (now w) rq)
    as [[Hb _] | [[_ [Hs E]] | [_ [s' [Hp' [Hne H]]]]]].
  - congruence.
  - rewrite E. specialize (Hs s Hp). subst s. split.
    + cbn. lia.
    + intros H. clash H.
  - assert (s' = s) by congruence. subst s'.
    destruct H as [[Hl E] | [[Hl E] | [[Hl [_ E]] | [Hl [_ E]]]]];
      rewrite E; split; try (intros; reflexivity); try lia;
      intros H; try clash H; assumption.
Qed.

(** X2: with the flag down, a request is answered 400 with
    [Invalid prompt], the state untouched, exactly when its prompt is not a
    non-empty string (missing, null, a number, an object, or [""]). *)
Theorem invalid_prompt_rejected :
  forall penv st w rq,
    isGenerating st = false ->
    ((forall s, rq_prompt rq = JStr s -> s = []) <->
     step penv st (Arrived rq) w =
       (st, Done, [respond 400 (ErrorBody (lit "Invalid prompt"))])).
Proof.
  intros penv st w rq Hg. cbn [step].
  destruct (arrive_table penv st (now w) rq)
    as [[Hb _] | [[_ [Hs E]] | [_ [s [Hp [Hne H]]]]]].
  - congruence.
  - rewrite E. tauto.
  - split.
    + intros Hs. now destruct (Hne (Hs s Hp)).
    + destruct H as [[Hl E] | [[Hl E] | [[Hl [_ E]] | [Hl [_ E]]]]];
        rewrite E; intros H; clash H.
Qed.


(** X4: the first segment of a handler answers [Server busy, try again]
    with status 429 exactly when [isGenerating] is true. *)
Theorem busy_answer_iff_flag :
  forall penv st w rq,
    isGenerating st = true <->
    exists ms,
      In (respond 429 (BusyBody (lit "Server busy, try again") ms))
         (snd (step penv st (Arrived rq) w)).
Proof.
  intros penv st w rq. cbn [step]. split.
  - intros Hg. eexists. unfold arrive. rewrite Hg. now left.
  - intros [ms H]. destruct (isGenerating st) eqn:Hg; [reflexivity |].
    now apply gate_open in H.
Qed.

(** X5: a segment that answers 400 or 429 writes none of the three
    module-level variables; in particular a rejected request does not
    disturb the pacing of the next one. *)
Theorem rejection_leaves_state :
  forall penv st ph w r,
    In (Respond r) (snd (step penv st ph w)) ->
    status r = 400 \/ status r = 429 ->
    fst (fst (step penv st ph w)) = st.
Proof.
  intros penv st ph w r Hin Hst.
  destruct ph as [rq | p m | p m a | p m a e |]; cbn [step] in *.
  - destruct (arrive_table penv st (now w) rq)
      as [[_ E] | [[_ [_ E]] | [_ [s [_ [_ H]]]]]];
      [now rewrite E | now rewrite E |].
    destruct H as [[_ E] | [[_ E] | [[_ [_ E]] | [_ [_ E]]]]];
      rewrite E in *; try reflexivity;
      cbn in Hin; destruct Hin as [Hin | []]; discriminate.
  - rewrite enterAttempt_first in Hin. cbn in Hin.
    destruct Hin as [Hin | []]; discriminate.
  - revert Hin. unfold settle, catchAttempt, handlerReturn, handlerCatch.
    destruct (outcome w) as [resp | err];
      try destruct (scanParts (responseParts resp));
      repeat break_if; cbn; intros [Hin | []];
      try discriminate; injection Hin as <-; cbn in Hst;
      destruct Hst; discriminate.
  - revert Hin. unfold enterAttempt, handlerCatch.
    break_if; cbn; intros [Hin | []];
      try discriminate; injection Hin as <-; cbn in Hst;
      destruct Hst; discriminate.
  - contradiction.
Qed.

(** ** Bounds on the waits *)


(** ** Whole requests *)

(** What holds of every segment holds of every entry of a trace. *)
Lemma run_effects penv (I : Phase -> Prop) (Q : Input -> Effect -> Prop) :
  (forall st ph w,
     I ph -> inFlight ph = true ->
     I (snd (fst (step penv st ph w))) /\
     (forall e, In e (snd (step penv st ph w)) -> Q w e)) ->
  forall ws st ph,
    I ph ->
    forall t e,
      In (t, e) (snd (run penv st ph ws)) ->
      exists w, In w ws /\ t = now w /\ Q w e.
Proof.
  intros Hstep. induction ws as [|w ws IH]; intros st ph HI t e Hin.
  - destruct ph; contradiction.
  - destruct (inFlight ph) eqn:Hfl.
    + rewrite run_cons in Hin by assumption.
      destruct (Hstep st ph w HI Hfl) as [HI1 HQ].
      destruct (step penv st ph w) as [[st1 ph1] effs]. cbn [fst snd] in *.
      specialize (IH st1 ph1 HI1 t e).
      destruct (run penv st1 ph1 ws) as [[st2 ph2] trace]. cbn [snd] in *.
      apply in_app_or in Hin. destruct Hin as [Hin | Hin].
      * apply in_map_iff in Hin. destruct Hin as [e' [[= <- <-] He]].
        exists w. repeat split; [now left | now apply HQ].
      * destruct (IH Hin) as [w' [Hw' H]]. exists w'. split; [now right | exact H].
    + destruct ph; try discriminate. rewrite run_Done in Hin. contradiction.
Qed.

Lemma responsesOf_app tr1 tr2 :
  responsesOf (tr1 ++ tr2) = responsesOf tr1 ++ responsesOf tr2.
Proof. unfold responsesOf. apply flat_map_app. Qed.

Lemma payloadsOf_app tr1 tr2 :
  payloadsOf (tr1 ++ tr2) = payloadsOf tr1 ++ payloadsOf tr2.
Proof. unfold payloadsOf. apply flat_map_app. Qed.

Lemma responsesOf_In tr r :
  In r (responsesOf tr) <-> exists t, In (t, Respond r) tr.
Proof.
  unfold responsesOf. rewrite in_flat_map. split.
  - intros [[t e] [Hin H]]. cbn [snd] in H.
    destruct e; try contradiction. destruct H as [<- | []]. now exists t.
  - intros [t Hin]. exists (t, Respond r). split; [assumption | now left].
Qed.

Lemma payloadsOf_In tr modelName text :
  In (modelName, text) (payloadsOf tr) <->
  exists t, In (t, Dispatch modelName text) tr.
Proof.
  unfold payloadsOf. rewrite in_flat_map. split.
  - intros [[t e] [Hin H]]. cbn [snd] in H.
    destruct e; try contradiction. destruct H as [[= <- <-] | []]. now exists t.
  - intros [t Hin]. exists (t, Dispatch modelName text).
    split; [assumption | now left].
Qed.

(** The attempt numbers the loop reaches stay between 1 and
    [MAX_ATTEMPTS]. *)
Lemma step_attemptInRange penv st ph w :
  attemptInRange penv ph ->
  attemptInRange penv (snd (fst (step penv st ph w))).
Proof.
  pose proof (MAX_ATTEMPTS_pos penv) as Hmax.
  destruct ph as [rq | p m | p m a | p m a e |]; cbn [step attemptInRange];
    intros Hr.
  - destruct (arrive_table penv st (now w) rq)
      as [[_ E] | [[_ [_ E]] | [_ [s [_ [_ H]]]]]];
      [now rewrite E | now rewrite E |].
    destruct H as [[_ E] | [[_ E] | [[_ [_ E]] | [_ [_ E]]]]];
      rewrite E; cbn; lia.
  - rewrite enterAttempt_first. cbn. lia.
  - unfold settle, catchAttempt, handlerReturn, handlerCatch.
    destruct (outcome w) as [resp | err];
      try destruct (scanParts (responseParts resp));
      repeat break_if; cbn [fst snd attemptInRange]; try exact I;
      match goal with
      | H : _ || (a =? _) = false |- _ =>
          apply orb_false_iff in H; destruct H as [_ H];
          apply Z.eqb_neq in H; lia
      end.
  - unfold enterAttempt, handlerCatch.
    destruct (Z.leb_spec (a + 1) (MAX_ATTEMPTS penv));
      cbn [fst snd attemptInRange]; [lia | exact I].
  - exact I.
Qed.

Lemma scanParts_nonempty ps d : scanParts ps = Some d -> d <> [].
Proof.
  intros H. apply scanParts_first in H.
  destruct H as [pre [p [post [_ [_ [H | [_ H]]]]]]];
    destruct H as [blob [_ [_ Hd]]]; exact Hd.
Qed.

Lemma step_wellFormed penv st ph w r :
  In (Respond r) (snd (step penv st ph w)) -> wellFormed r.
Proof.
  destruct ph as [rq | p m | p m a | p m a e |]; cbn [step].
  - destruct (arrive_table penv st (now w) rq)
      as [[_ E] | [[_ [_ E]] | [_ [s [_ [_ H]]]]]].
    + rewrite E. intros [[= <-] | []]. cbn. now split.
    + rewrite E. intros [[= <-] | []]. cbn. split; [reflexivity | now left].
    + destruct H as [[_ E] | [[_ E] | [[_ [_ E]] | [_ [_ E]]]]];
        rewrite E; intros [H | []]; try discriminate;
        injection H as <-; cbn; split; try reflexivity.
      * right. now left.
      * right. right. now left.
  - rewrite enterAttempt_first. intros [H | []]. discriminate.
  - unfold settle, catchAttempt, handlerReturn, handlerCatch.
    destruct (outcome w) as [resp | err];
      try destruct (scanParts (responseParts resp)) as [d|] eqn:Hscan;
      repeat break_if; cbn; intros [H | []]; try discriminate;
      injection H as <-; cbn; split; try reflexivity.
    all: eapply scanParts_nonempty; eassumption.
  - unfold enterAttempt, handlerCatch.
    break_if; cbn; intros [H | []]; try discriminate;
      injection H as <-; cbn; split; reflexivity.
  - contradiction.
Qed.

(** X8: every response of a handler pairs its status with its body: 200
    with a non-empty [audioData], 400 with one of the three validation
    messages, 429 with the busy message, 500 with [Failed to generate
    music]. *)
Theorem responses_wellFormed :
  forall penv st rq ws r,
    In r (responsesOf (snd (run penv st (Arrived rq) ws))) ->
    wellFormed r.
Proof.
  intros penv st rq ws r Hin. apply responsesOf_In in Hin.
  destruct Hin as [t Hin].
  destruct (run_effects penv (fun _ => True)
              (fun _ e => forall r, e = Respond r -> wellFormed r))
    with (ws := ws) (st := st) (ph := Arrived rq) (t := t) (e := Respond r)
    as [w [_ [_ HQ]]]; try assumption; try exact I.
  - intros st0 ph w _ _. split; [exact I |].
    intros e He r0 ->. eapply step_wellFormed, He.
  - now apply HQ.
Qed.

(** ** What is sent to the model client *)

Lemma trimStart_suffix (s : jsstring) : exists pre, s = pre ++ trimStart s.
Proof.
  induction s as [|c s [pre IH]]; cbn [trimStart]; [now exists [] |].
  destruct (isTrimmed c); [| now exists []].
  exists (c :: pre). cbn. now f_equal.
Qed.

Lemma trimEnd_prefix (s : jsstring) : exists post, s = trimEnd s ++ post.
Proof.
  unfold trimEnd. destruct (trimStart_suffix (rev s)) as [pre H].
  exists (rev pre). apply (f_equal (@rev N)) in H.
  now rewrite rev_involutive, rev_app_distr in H.
Qed.

(** Trimming leaves no white space at either end. *)
Lemma trim_tight (s : jsstring) : tight (trim s).
Proof.
  unfold tight, trim. split.
  - intros c rest H.
    destruct (trimEnd_prefix (trimStart s)) as [post Hpre].
    rewrite H in Hpre.
    destruct (trimStart_head s) as [E | [c' [t [E Hc]]]].
    + rewrite E in Hpre. discriminate.
    + rewrite E in Hpre. now injection Hpre as -> _.
  - intros init c H. unfold trimEnd in H.
    apply (f_equal (@rev N)) in H.
    rewrite rev_involutive, rev_app_distr in H. cbn in H.
    destruct (trimStart_head (rev (trimStart s))) as [E | [c' [t [E Hc]]]].
    + rewrite E in H. discriminate.
    + rewrite E in H. now injection H as -> _.
Qed.

Lemma chosenModel_nonempty penv rq : chosenModel penv rq <> [].
Proof.
  unfold chosenModel.
  destruct (typeof_string (rq_model rq) && truthy (trim (val_string (rq_model rq))))
    eqn:E.
  - apply andb_true_iff in E. destruct E as [_ E].
    now destruct (trim (val_string (rq_model rq))).
  - unfold DEFAULT_MODEL. destruct (VERTEX_MODEL penv) as [[|c s]|]; discriminate.
Qed.

Lemma step_payload penv rq (ph : Phase) st w :
  let pay := (chosenModel penv rq,
              requestText (trim (val_string (rq_prompt rq)))) in
  let I := fun ph => ph = Arrived rq \/ ph = Done \/
                     (acceptablePrompt rq /\ payloadOf ph = Some pay) in
  I ph ->
  I (snd (fst (step penv st ph w))) /\
  forall e, In e (snd (step penv st ph w)) ->
            forall modelName text,
              e = Dispatch modelName text ->
              acceptablePrompt rq /\ (modelName, text) = pay.
Proof.
  intros pay I [-> | [-> | [Hacc Hpay]]].
  - cbn [step].
    destruct (arrive_table penv st (now w) rq)
      as [[_ E] | [[_ [_ E]] | [_ [s [Hp [_ H]]]]]].
    + rewrite E. split; [right; now left |].
      intros e [<- | []] m t H. discriminate.
    + rewrite E. split; [right; now left |].
      intros e [<- | []] m t H. discriminate.
    + assert (Hacc : 1 <= JsString.length (trim s) <= 500 -> acceptablePrompt rq)
        by (intros Hl; now exists s).
      assert (Hs : val_string (rq_prompt rq) = s) by now rewrite Hp.
      destruct H as [[_ E] | [[_ E] | [[Hl [_ E]] | [Hl [_ E]]]]]; rewrite E;
        cbn [fst snd].
      * split; [right; now left |]. intros e [<- | []] m t H. discriminate.
      * split; [right; now left |]. intros e [<- | []] m t H. discriminate.
      * split.
        -- right. right. split; [auto |]. unfold pay. now rewrite Hs.
        -- intros e [<- | []] m t H. discriminate.
      * split.
        -- right. right. split; [auto |]. unfold pay. now rewrite Hs.
        -- intros e [<- | []] m t [= <- <-]. split; [auto |].
           unfold pay. now rewrite Hs.
  - cbn. split; [right; now left | contradiction].
  - destruct ph as [rq' | p m | p m a | p m a err |]; try discriminate;
      cbn [payloadOf] in Hpay; injection Hpay as Hm Ht; cbn [step].
    + rewrite enterAttempt_first. cbn [fst snd]. split.
      * right. right. split; [assumption |]. cbn. unfold pay. congruence.
      * intros e [<- | []] m' t' [= <- <-]. split; [assumption |].
        unfold pay. congruence.
    + unfold settle, catchAttempt, handlerReturn, handlerCatch.
      destruct (outcome w) as [resp | err];
        try destruct (scanParts (responseParts resp));
        repeat break_if; cbn [fst snd];
        (split;
         [ first [ right; now left
                 | right; right; split; [assumption |]; cbn; unfold pay; congruence ]
         | intros e [<- | []] m' t' H; discriminate ]).
    + unfold enterAttempt, handlerCatch. break_if; cbn [fst snd].
      * split.
        -- right. right. split; [assumption |]. cbn. unfold pay. congruence.
        -- intros e [<- | []] m' t' [= <- <-]. split; [assumption |].
           unfold pay. congruence.
      * split; [right; now left |].
        intros e [<- | []] m' t' H. discriminate.
Qed.

(** X10: every call of the model client made for a request, the first
    one and every retry, carries the same payload: the model name chosen on
    line 141, which is never empty, and the trimmed prompt followed by the
    fixed instruction; the trimmed prompt has between 1 and 500 code units
    and no white space at either end. *)
Theorem every_call_carries_the_request :
  forall penv st rq ws modelName text,
    In (modelName, text) (payloadsOf (snd (run penv st (Arrived rq) ws))) ->
    let promptText := trim (val_string (rq_prompt rq)) in
    modelName = chosenModel penv rq /\
    modelName <> [] /\
    text = requestText promptText /\
    1 <= JsString.length promptText <= 500 /\
    tight promptText.
Proof.
  intros penv st rq ws modelName text Hin promptText.
  apply payloadsOf_In in Hin. destruct Hin as [t Hin].
  pose proof (step_payload penv rq) as Hstep. cbv zeta in Hstep.
  destruct (run_effects penv _ _
              (fun st ph w HI _ => Hstep ph st w HI)
              ws st (Arrived rq) (or_introl eq_refl) t _ Hin)
    as [w [_ [_ HQ]]].
  destruct (HQ modelName text eq_refl) as [[s [Hp Hl]] [= -> ->]].
  repeat split; try (apply chosenModel_nonempty); try apply trim_tight;
    unfold promptText; rewrite Hp; cbn [val_string]; lia.
Qed.

(** ** Counting responses and calls *)

Lemma step_one_response penv st ph w :
  inFlight ph = true ->
  let '(_, ph1, effs) := step penv st ph w in
  List.length (responsesOf (List.map (fun e => (now w, e)) effs)) =
  if inFlight ph1 then 0%nat else 1%nat.
Proof.
  destruct ph as [rq | p m | p m a | p m a e |]; intros Hfl;
    try discriminate; cbn [step].
  - destruct (arrive_table penv st (now w) rq)
      as [[_ E] | [[_ [_ E]] | [_ [s [_ [_ H]]]]]];
      [now rewrite E | now rewrite E |].
    destruct H as [[_ E] | [[_ E] | [[_ [_ E]] | [_ [_ E]]]]];
      now rewrite E.
  - now rewrite enterAttempt_first.
  - unfold settle, catchAttempt, handlerReturn, handlerCatch.
    destruct (outcome w) as [resp | err];
      try destruct (scanParts (responseParts resp));
      repeat break_if; try reflexivity; discriminate.
  - unfold enterAttempt, handlerCatch.
    repeat break_if; try reflexivity; discriminate.
Qed.

Lemma run_one_response penv ws : forall st ph,
  inFlight ph = true ->
  List.length (responsesOf (snd (run penv st ph ws))) =
  if inFlight (snd (fst (run penv st ph ws))) then 0%nat else 1%nat.
Proof.
  induction ws as [|w ws IH]; intros st ph Hfl.
  - destruct ph; try discriminate; reflexivity.
  - rewrite run_cons by assumption.
    pose proof (step_one_response penv st ph w Hfl) as Hstep.
    destruct (step penv st ph w) as [[st1 ph1] effs].
    destruct (inFlight ph1) eqn:Hfl1.
    + specialize (IH st1 ph1 Hfl1).
      destruct (run penv st1 ph1 ws) as [[st2 ph2] trace]. cbn [fst snd] in *.
      rewrite responsesOf_app, length_app, Hstep. exact IH.
    + destruct ph1; try discriminate. rewrite run_Done. cbn [fst snd].
      now rewrite app_nil_r.
Qed.

(** X11: a request is answered exactly once: the trace of a request that
    has ended holds one response, and that of a request still in flight
    holds none. *)
Theorem answered_at_most_once :
  forall penv st rq ws,
    let '(_, ph', trace) := run penv st (Arrived rq) ws in
    (ph' = Done -> List.length (responsesOf trace) = 1%nat) /\
    (ph' <> Done -> responsesOf trace = []).
Proof.
  intros penv st rq ws.
  pose proof (run_one_response penv ws st (Arrived rq) eq_refl) as H.
  destruct (run penv st (Arrived rq) ws) as [[st' ph'] trace].
  cbn [fst snd] in H. split.
  - intros ->. exact H.
  - intros Hnd. destruct ph'; try contradiction; cbn in H;
      now apply length_zero_iff_nil.
Qed.

Lemma step_callsLeft penv st ph w :
  let '(_, ph1, effs) := step penv st ph w in
  (List.length (payloadsOf (List.map (fun e => (now w, e)) effs)) +
   callsLeft penv ph1 <= callsLeft penv ph)%nat.
Proof.
  pose proof (MAX_ATTEMPTS_pos penv) as Hmax.
  destruct ph as [rq | p m | p m a | p m a e |]; cbn [step].
  - destruct (arrive_table penv st (now w) rq)
      as [[_ E] | [[_ [_ E]] | [_ [s [_ [_ H]]]]]];
      [rewrite E; cbn; lia | rewrite E; cbn; lia |].
    destruct H as [[_ E] | [[_ E] | [[_ [_ E]] | [_ [_ E]]]]];
      rewrite E; cbn; lia.
  - rewrite enterAttempt_first. cbn. lia.
  - unfold settle, catchAttempt, handlerReturn, handlerCatch.
    destruct (outcome w) as [resp | err];
      try destruct (scanParts (responseParts resp));
      repeat break_if; cbn; lia.
  - unfold enterAttempt, handlerCatch.
    destruct (Z.leb_spec (a + 1) (MAX_ATTEMPTS penv)); cbn; lia.
  - cbn. lia.
Qed.

Lemma run_callsLeft penv ws : forall st ph,
  (List.length (payloadsOf (snd (run penv st ph ws))) +
   callsLeft penv (snd (fst (run penv st ph ws))) <= callsLeft penv ph)%nat.
Proof.
  induction ws as [|w ws IH]; intros st ph.
  - destruct ph; cbn; lia.
  - destruct (inFlight ph) eqn:Hfl.
    + rewrite run_cons by assumption.
      pose proof (step_callsLeft penv st ph w) as Hstep.
      destruct (step penv st ph w) as [[st1 ph1] effs].
      specialize (IH st1 ph1).
      destruct (run penv st1 ph1 ws) as [[st2 ph2] trace]. cbn [fst snd] in *.
      rewrite payloadsOf_app, length_app. lia.
    + destruct ph; try discriminate. rewrite run_Done. cbn. lia.
Qed.

(** X12: a request calls the model client at most [MAX_ATTEMPTS] times,
    whatever the outcomes of the calls. *)
Theorem calls_bounded_by_MAX_ATTEMPTS :
  forall penv st rq ws,
    Z.of_nat (List.length (payloadsOf (snd (run penv st (Arrived rq) ws))))
    <= MAX_ATTEMPTS penv.
Proof.
  intros penv st rq ws.
  pose proof (run_callsLeft penv ws st (Arrived rq)) as H.
  pose proof (MAX_ATTEMPTS_pos penv). cbn [callsLeft] in H. lia.
Qed.

(** ** Retried attempts *)

Lemma run_rounds penv p m rest : forall rs attempt st,
  Forall (fun r => retryable (fst r)) rs ->
  attempt + Z.of_nat (List.length rs) <= MAX_ATTEMPTS penv ->
  run penv st (AwaitModel p m attempt) (rounds rs ++ rest) =
  (let '(st', ph', trace) :=
     run penv st (AwaitModel p m (attempt + Z.of_nat (List.length rs))) rest in
   (st', ph', retryTrace penv p m attempt rs ++ trace)).
Proof.
  induction rs as [|[w tm] rs IH]; intros attempt st Hall Hlen.
  - cbn [rounds flat_map List.length retryTrace app]. rewrite Z.add_0_r.
    now destruct (run penv st (AwaitModel p m attempt) rest) as [[? ?] ?].
  - inversion Hall as [|? ? [err [Hout Hretry]] Hall']; subst.
    cbn [fst snd] in Hout.
    cbn [List.length] in Hlen. rewrite Nat2Z.inj_succ in Hlen.
    cbn [rounds flat_map fst snd app]. fold (rounds rs).
    rewrite run_cons by reflexivity. cbn [step]. unfold settle.
    rewrite Hout, catchAttempt_retry by (assumption || lia).
    rewrite run_cons by reflexivity. cbn [step]. unfold enterAttempt.
    destruct (Z.leb_spec (attempt + 1) (MAX_ATTEMPTS penv)); [| lia].
    rewrite (IH (attempt + 1) st Hall') by lia.
    cbn [List.length]. rewrite Nat2Z.inj_succ.
    replace (attempt + 1 + Z.of_nat (List.length rs))
      with (attempt + Z.succ (Z.of_nat (List.length rs))) by lia.
    destruct (run penv st _ rest) as [[st' ph'] trace].
    reflexivity.
Qed.

(** X13: when the first calls are rejected with retryable errors, fewer
    of them than [MAX_ATTEMPTS], and the next call returns audio, the request
    is answered 200 with that audio; each rejection is followed by one
    backoff sleep and one new call, the state is only written by the
    successful call, and the flag ends down. *)
Theorem retries_then_success :
  forall penv st promptText modelName rs w response audio,
    Forall (fun r => retryable (fst r)) rs ->
    1 + Z.of_nat (List.length rs) <= MAX_ATTEMPTS penv ->
    outcome w = Resolved response ->
    scanParts (responseParts response) = Some audio ->
    run penv st (AwaitModel promptText modelName 1) (rounds rs ++ [w]) =
    ({| lastCallAtMs := now w; lastSuccessAtMs := now w;
        isGenerating := false |},
     Done,
     retryTrace penv promptText modelName 1 rs ++
     [(now w, respond 200 (AudioBody audio))]).
Proof.
  intros penv st promptText modelName rs w response audio Hall Hlen Hout Hscan.
  rewrite run_rounds by assumption.
  rewrite run_cons by reflexivity. cbn [step]. unfold settle.
  rewrite Hout, Hscan. reflexivity.
Qed.

(** X14: when every attempt but the last is rejected with a retryable
    error and the last attempt is rejected too, the request is answered 500
    with the text of the last error, whether retryable or not; the
    timestamps are left as they were and the flag ends down. *)
Theorem retries_exhausted :
  forall penv st promptText modelName rs w err,
    Forall (fun r => retryable (fst r)) rs ->
    1 + Z.of_nat (List.length rs) = MAX_ATTEMPTS penv ->
    outcome w = Rejected err ->
    run penv st (AwaitModel promptText modelName 1) (rounds rs ++ [w]) =
    (setGenerating false st, Done,
     retryTrace penv promptText modelName 1 rs ++ [(now w, failure err)]).
Proof.
  intros penv st promptText modelName rs w err Hall Hlen Hout.
  rewrite run_rounds by (assumption || lia).
  rewrite run_cons by reflexivity. cbn [step]. unfold settle.
  rewrite Hout, catchAttempt_throw by (right; lia). reflexivity.
Qed.

(** ** The two timestamps on the server *)

Lemma step_timestamps_equal penv st ph w :
  lastCallAtMs st = lastSuccessAtMs st ->
  lastCallAtMs (fst (fst (step penv st ph w))) =
  lastSuccessAtMs (fst (fst (step penv st ph w))).
Proof.
  intros H.
  destruct ph as [rq | p m | p m a | p m a e |]; cbn [step].
  - unfold arrive, enterAttempt. repeat break_if; cbn; assumption.
  - unfold enterAttempt. break_if; cbn; assumption.
  - unfold settle, catchAttempt, handlerReturn, handlerCatch.
    destruct (outcome w) as [resp | err];
      try destruct (scanParts (responseParts resp));
      repeat break_if; cbn; try reflexivity; assumption.
  - unfold enterAttempt. break_if; cbn; assumption.
  - assumption.
Qed.

(** X15: on a server started from scratch, [lastCallAtMs] and
    [lastSuccessAtMs] are equal at all times: both are written together on
    lines 96-97 and nowhere else. *)
Theorem timestamps_always_equal :
  forall penv evs,
    lastCallAtMs (gateway (serve penv bootServer evs)) =
    lastSuccessAtMs (gateway (serve penv bootServer evs)).
Proof.
  intros penv evs. unfold serve.
  assert (H : lastCallAtMs (gateway bootServer) =
              lastSuccessAtMs (gateway bootServer)) by reflexivity.
  revert H. generalize bootServer.
  induction evs as [|ev evs IH]; intros sv H; [exact H |].
  cbn [fold_left]. apply IH.
  destruct ev as [rq t | id w]; cbn [handle].
  - pose proof (step_timestamps_equal penv (gateway sv) (Arrived rq)
                  {| now := t; outcome := Rejected (ThrownStr []);
                     random := 0%float |} H) as Hs.
    cbn [step now] in Hs.
    now destruct (arrive penv (gateway sv) t rq) as [[st1 ph1] effs].
  - destruct (nth_error (requests sv) id) as [ph|]; [| exact H].
    pose proof (step_timestamps_equal penv (gateway sv) ph w H) as Hs.
    now destruct (step penv (gateway sv) ph w) as [[st1 ph1] effs].
Qed.

(** X16: on a server started from scratch, at most one request is in
    flight at any time, whatever the order of arrivals, timers and settled
    calls; and one is in flight exactly when [isGenerating] is true. *)
Theorem at_most_one_in_flight :
  forall penv evs,
    let sv := serve penv bootServer evs in
    (countInFlight (requests sv) <= 1)%nat /\
    (countInFlight (requests sv) = 1%nat <-> isGenerating (gateway sv) = true).
Proof.
  intros penv evs sv.
  destruct (serve_singleFlight penv evs bootServer boot_singleFlight)
    as [Hcount _].
  fold sv in Hcount. rewrite Hcount.
  destruct (isGenerating (gateway sv)); split; try lia; split;
    try reflexivity; discriminate.
Qed.

(** ** The retry signature matches inside words *)

Lemma occursIn_trans (a b s : jsstring) :
  occursIn a b -> occursIn b s -> occursIn a s.
Proof.
  intros [pre1 [post1 ->]] [pre2 [post2 ->]].
  exists (pre2 ++ pre1), (post1 ++ post2). now rewrite <- !app_assoc.
Qed.

(** X17: [shouldRetry] looks for its signatures anywhere in the text,
    also inside words: an error whose text contains any word that contains
    [rate] (such as [generate]) is classified as retryable. *)
Theorem signature_matches_inside_words :
  forall err word,
    occursIn (lit "rate") word ->
    occursIn word (errText err) ->
    shouldRetry err = true.
Proof.
  intros err word Hword Herr. apply shouldRetry_signature.
  exists (lit "rate"). split; [cbn; tauto |].
  eapply occursIn_trans; eassumption.
Qed.

Lemma signature_matches_inside_words_example :
  shouldRetry (newError "Model failed to generate content: invalid argument")
  = true.
Proof.
  apply (signature_matches_inside_words
           (newError "Model failed to generate content: invalid argument")
           (lit "generate")).
  - now exists (lit "gene"), [].
  - now exists (lit "Model failed to "), (lit " content: invalid argument").
Defined.

(** ** Instances *)

Lemma overlong_prompt_rejected_example :
  let rq := {| rq_method := POST;
               rq_prompt := JStr (lit " " ++ List.repeat 97%N 501);
               rq_model := JUndefined |} in
  step defaultEnv initialState (Arrived rq) (clockAt 1700000000000) =
    (initialState, Done,
     [respond 400 (ErrorBody (lit "Prompt is too long (max 500 chars)"))]).
Proof.
  intros rq.
  apply (proj1 (overlong_prompt_rejected defaultEnv initialState
                  (clockAt 1700000000000) rq
                  (lit " " ++ List.repeat 97%N 501) eq_refl eq_refl)).
  reflexivity.
Defined.

Lemma invalid_prompt_rejected_example :
  step defaultEnv initialState
    (Arrived {| rq_method := GET; rq_prompt := JNum 42; rq_model := JUndefined |})
    (clockAt 1700000000000) =
    (initialState, Done, [respond 400 (ErrorBody (lit "Invalid prompt"))]).
Proof.
  apply (proj1 (invalid_prompt_rejected defaultEnv initialState
                  (clockAt 1700000000000)
                  {| rq_method := GET; rq_prompt := JNum 42;
                     rq_model := JUndefined |} eq_refl)).
  intros s H. discriminate H.
Defined.

Lemma rejection_leaves_state_example :
  let st := {| lastCallAtMs := 1700000000000;
               lastSuccessAtMs := 1700000000000; isGenerating := true |} in
  fst (fst (step defaultEnv st (Arrived (postPrompt "calm piano"))
              (clockAt 1700000002500))) = st.
Proof.
  intros st.
  apply (rejection_leaves_state defaultEnv st (Arrived (postPrompt "calm piano"))
           (clockAt 1700000002500)
           {| status := 429;
              body := BusyBody (lit "Server busy, try again") 4500 |}).
  - now left.
  - now right.
Defined.


Lemma responses_wellFormed_example :
  wellFormed {| status := 200; body := AudioBody (lit "QUJD") |}.
Proof.
  apply (responses_wellFormed defaultEnv initialState (postPrompt "calm piano")
           [clockAt 1700000000000;
            resolvedAt 1700000000300 (audioResponse "QUJD")]).
  now left.
Defined.

Lemma every_call_carries_the_request_example :
  let rq := {| rq_method := POST; rq_prompt := JStr (lit "  calm piano ");
               rq_model := JStr (lit " lyria-003 ") |} in
  let promptText := trim (val_string (rq_prompt rq)) in
  lit "lyria-003" = chosenModel defaultEnv rq /\
  lit "lyria-003" <> [] /\
  requestText (lit "calm piano") = requestText promptText /\
  1 <= JsString.length promptText <= 500 /\
  tight promptText.
Proof.
  intros rq.
  apply (every_call_carries_the_request defaultEnv initialState rq
           [clockAt 1700000000000] (lit "lyria-003")
           (requestText (lit "calm piano"))).
  now left.
Defined.

Lemma retries_then_success_example :
  let rs := [(rejectedAt 1700000000400 (newError "429 Too Many Requests"),
              clockAt 1700000001600);
             (rejectedAt 1700000002000 (newError "status 429"),
              clockAt 1700000004400)] in
  let w := resolvedAt 1700000004900 (audioResponse "QUJD") in
  run threeAttemptsEnv (setGenerating true initialState)
    (AwaitModel (lit "calm piano") (lit "lyria-002") 1) (rounds rs ++ [w]) =
  ({| lastCallAtMs := 1700000004900; lastSuccessAtMs := 1700000004900;
      isGenerating := false |},
   Done,
   retryTrace threeAttemptsEnv (lit "calm piano") (lit "lyria-002") 1 rs ++
   [(1700000004900, respond 200 (AudioBody (lit "QUJD")))]).
Proof.
  intros rs w.
  apply (retries_then_success threeAttemptsEnv (setGenerating true initialState)
           (lit "calm piano") (lit "lyria-002") rs w (audioResponse "QUJD")
           (lit "QUJD")).
  - repeat constructor; eexists; (split; [reflexivity | reflexivity]).
  - cbn. lia.
  - reflexivity.
  - reflexivity.
Defined.

Lemma retries_exhausted_example :
  let rs := [(rejectedAt 1700000000400 (newError "429 Too Many Requests"),
              clockAt 1700000001600);
             (rejectedAt 1700000002000 (newError "status 429"),
              clockAt 1700000004400)] in
  let w := rejectedAt 1700000004900 (newError "503 Service Unavailable") in
  run threeAttemptsEnv (setGenerating true initialState)
    (AwaitModel (lit "calm piano") (lit "lyria-002") 1) (rounds rs ++ [w]) =
  (initialState, Done,
   retryTrace threeAttemptsEnv (lit "calm piano") (lit "lyria-002") 1 rs ++
   [(1700000004900, failure (newError "503 Service Unavailable"))]).
Proof.
  intros rs w.
  apply (retries_exhausted threeAttemptsEnv (setGenerating true initialState)
           (lit "calm piano") (lit "lyria-002") rs w
           (newError "503 Service Unavailable")).
  - repeat constructor; eexists; (split; [reflexivity | reflexivity]).
  - reflexivity.
  - reflexivity.
Defined.

(** * The gateway under any setting *)

(** ** Doubles that are not numbers, and [Math.max] *)

Lemma SFcompare_refl (x : spec_float) :
  x <> S754_nan -> SFcompare x x = Some Eq.
Proof.
  destruct x as [s | s | | s m e]; intros H; try congruence; cbn.
  - reflexivity.
  - now destruct s.
  - destruct s; rewrite Z.compare_refl.
    + fold (Pos.compare m m). now rewrite Pos.compare_refl.
    + fold (Pos.compare m m). now rewrite Pos.compare_refl.
Qed.

Lemma is_nan_spec (x : float) :
  is_nan x = match Prim2SF x with S754_nan => true | _ => false end.
Proof.
  unfold is_nan. rewrite eqb_spec. unfold SFeqb.
  destruct (Prim2SF x) eqn:E; try reflexivity;
    rewrite SFcompare_refl by discriminate; reflexivity.
Qed.

Lemma leb_refl (x : float) : is_nan x = false -> (x <=? x)%float = true.
Proof.
  rewrite is_nan_spec, leb_spec. unfold SFleb. intros H.
  rewrite SFcompare_refl; [reflexivity |].
  intros E. now rewrite E in H.
Qed.

Lemma ltb_leb (x y : float) : (x <? y)%float = true -> (x <=? y)%float = true.
Proof.
  rewrite ltb_spec, leb_spec. unfold SFltb, SFleb.
  now destruct (SFcompare (Prim2SF x) (Prim2SF y)) as [[| |]|].
Qed.

Lemma Math_max_nan (a b : float) :
  is_nan (AnySetting.Math_max a b) = is_nan a || is_nan b.
Proof.
  unfold AnySetting.Math_max.
  destruct (is_nan a) eqn:Ha; [reflexivity |].
  destruct (is_nan b) eqn:Hb; [reflexivity |]. cbn [orb].
  repeat break_if; assumption.
Qed.

Lemma Math_max_lower (a b : float) :
  is_nan a = false -> is_nan b = false -> get_sign a = false ->
  (a <=? AnySetting.Math_max a b)%float = true.
Proof.
  intros Ha Hb Hs. unfold AnySetting.Math_max. rewrite Ha, Hb, Hs. cbn [orb].
  destruct (a <? b)%float eqn:E; [now apply ltb_leb |].
  destruct (b <? a)%float; now apply leb_refl.
Qed.

Lemma limit_nan (c d : float) (v : option float) :
  is_nan c = false -> is_nan d = false ->
  is_nan (AnySetting.Math_max c (orDefault v d)) = unparsed v.
Proof.
  intros Hc Hd. rewrite Math_max_nan, Hc. now destruct v.
Qed.

(** ** Subtracting a time from a limit *)

Lemma shr_nonneg (mrs : shr_record) (e n : Z) :
  0 <= shr_m mrs -> 0 <= shr_m (fst (shr mrs e n)).
Proof.
  intros H. destruct n as [|p|p]; cbn [shr fst]; try assumption.
  rewrite iter_pos_nat, shr_iter_m by assumption.
  apply Z.div_pos; lia.
Qed.

Lemma round_aux_not_nan (s : bool) (M e : Z) (l : location) :
  0 <= M -> binary_round_aux prec emax s M e l <> S754_nan.
Proof.
  intros HM. unfold binary_round_aux, shr_fexp.
  pose proof (shr_nonneg (shr_record_of_loc M l) e
                (fexp prec emax (Zdigits2 M + e) - e)) as H1.
  destruct (shr (shr_record_of_loc M l) e _) as [mrs' e'].
  cbn [fst] in H1.
  assert (H0 : 0 <= shr_m mrs') by (apply H1; now destruct l as [|[| |]]).
  pose proof (round_nearest_even_bounds (shr_m mrs') (loc_of_shr_record mrs'))
    as Hr.
  set (m2 := round_nearest_even (shr_m mrs') (loc_of_shr_record mrs')) in *.
  pose proof (shr_nonneg (shr_record_of_loc m2 loc_Exact) e'
                (fexp prec emax (Zdigits2 m2 + e') - e')) as H2.
  destruct (shr (shr_record_of_loc m2 loc_Exact) e' _) as [mrs'' e''].
  cbn [fst] in H2.
  assert (H3 : 0 <= shr_m mrs'') by (apply H2; cbn; lia).
  destruct (shr_m mrs'') as [|p|p]; try lia; try discriminate.
  now destruct (e'' <=? emax - prec).
Qed.

Lemma normalize_not_nan (m e : Z) :
  binary_normalize prec emax m e false <> S754_nan.
Proof.
  unfold binary_normalize, binary_round.
  destruct m as [|p|p]; [discriminate | |];
    destruct (shl_align p e _) as [mz ez];
    apply round_aux_not_nan; lia.
Qed.

Lemma sub_not_nan (x d : float) :
  is_nan x = false -> finiteNumber (Prim2SF d) ->
  is_nan (x - d)%float = false.
Proof.
  rewrite !is_nan_spec, sub_spec. unfold SF64sub, SFsub.
  destruct (Prim2SF x) as [sx | sx | | sx mx ex]; try discriminate;
    destruct (Prim2SF d) as [sd | sd | | sd md ed]; cbn [finiteNumber];
    intros _ Hd; try contradiction; try reflexivity;
    try (now destruct sx, sd).
  match goal with
    | |- match ?b with _ => _ end = false =>
        pose proof (normalize_not_nan
                      (cond_Zopp sx (Z.pos (fst (shl_align mx ex (Z.min ex ed)))) -
                       cond_Zopp sd (Z.pos (fst (shl_align md ed (Z.min ex ed)))))
                      (Z.min ex ed)) as H;
        destruct b; try reflexivity; congruence
  end.
Qed.

(** The double of a whole number below 2^53 in size. *)
Lemma round_aux_opp (M e : Z) (l : location) :
  binary_round_aux prec emax true M e l =
  SFopp (binary_round_aux prec emax false M e l).
Proof.
  unfold binary_round_aux.
  destruct (shr_fexp prec emax M e l) as [mrs' e'].
  destruct (shr_fexp prec emax _ e' loc_Exact) as [mrs'' e''].
  destruct (shr_m mrs'') as [|p|p]; try reflexivity.
  now destruct (e'' <=? emax - prec).
Qed.

Lemma round_whole (s : bool) (b : positive) :
  Z.pos b < 2 ^ 53 ->
  exists m e,
    binary_round prec emax s b 0 = S754_finite s m e /\
    bounded prec emax m e = true.
Proof.
  intros HB.
  assert (Hdb : Z.pos (digits2_pos b) <= 53)
    by (apply (Zdigits2_le (Z.pos b)); lia).
  assert (Hnorm : forall m e,
            Z.pos (digits2_pos m) = 53 -> -52 <= e <= 0 ->
            binary_round_aux prec emax s (Z.pos m) e loc_Exact =
              S754_finite s m e /\
            bounded prec emax m e = true).
  { intros m e Hm He.
    assert (Hf : binary_round_aux prec emax false (Z.pos m) e loc_Exact =
                 S754_finite false m e)
      by (apply round_aux_canonical; [rewrite Hm, fexp64_eq |]; lia).
    split.
    - destruct s; [rewrite round_aux_opp, Hf |]; easy.
    - apply canonical_bounded; [rewrite Hm, fexp64_eq |]; lia. }
  unfold binary_round, shl_align.
  fold (fexp64 (Z.pos (digits2_pos b) + 0)). rewrite fexp64_eq.
  destruct (Z.max (Z.pos (digits2_pos b) + 0 - 53) (-1074) - 0)
    as [|d|d] eqn:E; try lia.
  - exists b, 0. apply Hnorm; lia.
  - exists (Pos.iter xO b d), (Z.max (Z.pos (digits2_pos b) + 0 - 53) (-1074)).
    apply Hnorm; [rewrite digits2_pos_iter |]; lia.
Qed.

Lemma ofZ_finite (z : Z) :
  Z.abs z < 2 ^ 53 -> finiteNumber (Prim2SF (ofZ z)).
Proof.
  intros Hz. unfold ofZ, binary_normalize. destruct z as [|p|p].
  - now vm_compute.
  - destruct (round_whole false p) as (m & e & -> & Hv); [lia |].
    now rewrite Prim2SF_SF2Prim.
  - destruct (round_whole true p) as (m & e & -> & Hv); [lia |].
    now rewrite Prim2SF_SF2Prim.
Qed.

(** ** Whole numbers among the doubles *)

(** Two whole numbers below 2^53 compare as doubles the way they compare
    as integers. *)
Lemma ofZ_compare (a b : Z) :
  0 < a < 2 ^ 53 -> 0 < b < 2 ^ 53 ->
  SFcompare (Prim2SF (ofZ a)) (Prim2SF (ofZ b)) = Some (a ?= b).
Proof.
  intros Ha Hb.
  destruct (ofZ_spec a Ha) as (m1 & e1 & -> & Hd1 & He1 & Hm1).
  destruct (ofZ_spec b Hb) as (m2 & e2 & -> & Hd2 & He2 & Hm2).
  pose proof (digits2_pos_bounds m1) as B1. rewrite Hd1 in B1.
  pose proof (digits2_pos_bounds m2) as B2. rewrite Hd2 in B2.
  change (2 ^ (53 - 1)) with 4503599627370496 in B1, B2.
  change (2 ^ 53) with 9007199254740992 in *.
  cbn [SFcompare]. f_equal.
  destruct (Z.compare_spec e1 e2) as [E | E | E].
  - subst e2. fold (Pos.compare m1 m2).
    change (m1 ?= m2)%positive with (Z.pos m1 ?= Z.pos m2).
    rewrite Hm1, Hm2.
    assert (Hr : 0 < 2 ^ (- e1)) by (apply Z.pow_pos_nonneg; lia).
    destruct (Z.compare_spec a b);
      [apply Z.compare_eq_iff | apply Z.compare_lt_iff | apply Z.compare_gt_iff];
      nia.
  - symmetry. apply Z.compare_lt_iff.
    assert (Hp : 2 ^ (- e1) = 2 ^ (e2 - e1) * 2 ^ (- e2))
      by (rewrite <- Z.pow_add_r by lia; f_equal; lia).
    assert (Hq : 2 <= 2 ^ (e2 - e1))
      by (change 2 with (2 ^ 1) at 1; apply Z.pow_le_mono_r; lia).
    assert (Hr : 0 < 2 ^ (- e2)) by (apply Z.pow_pos_nonneg; lia).
    rewrite Hp in Hm1. nia.
  - symmetry. apply Z.compare_gt_iff.
    assert (Hp : 2 ^ (- e2) = 2 ^ (e1 - e2) * 2 ^ (- e1))
      by (rewrite <- Z.pow_add_r by lia; f_equal; lia).
    assert (Hq : 2 <= 2 ^ (e1 - e2))
      by (change 2 with (2 ^ 1) at 1; apply Z.pow_le_mono_r; lia).
    assert (Hr : 0 < 2 ^ (- e1)) by (apply Z.pow_pos_nonneg; lia).
    rewrite Hp in Hm2. nia.
Qed.

Lemma ofZ_eqb (a b : Z) :
  0 < a < 2 ^ 53 -> 0 < b < 2 ^ 53 ->
  (ofZ a =? ofZ b)%float = (a =? b).
Proof.
  intros Ha Hb. rewrite eqb_spec. unfold SFeqb. rewrite ofZ_compare by assumption.
  rewrite Z.eqb_compare. now destruct (a ?= b).
Qed.

Lemma ofZ_leb (a b : Z) :
  0 < a < 2 ^ 53 -> 0 < b < 2 ^ 53 ->
  (ofZ a <=? ofZ b)%float = (a <=? b).
Proof.
  intros Ha Hb. rewrite leb_spec. unfold SFleb. rewrite ofZ_compare by assumption.
  rewrite Z.leb_compare. now destruct (a ?= b).
Qed.

Lemma ofZ_ltb (a b : Z) :
  0 < a < 2 ^ 53 -> 0 < b < 2 ^ 53 ->
  (ofZ a <? ofZ b)%float = (a <? b).
Proof.
  intros Ha Hb. rewrite ltb_spec. unfold SFltb. rewrite ofZ_compare by assumption.
  rewrite Z.ltb_compare. now destruct (a ?= b).
Qed.

(** [VERTEX_MAX_ATTEMPTS] set to a whole number from 1 on makes
    [MAX_ATTEMPTS] that number. *)
Lemma whole_budget (K : Z) (hardCooldown : option float) :
  1 <= K < 2 ^ 53 ->
  AnySetting.MAX_ATTEMPTS (AnySetting.setting (Some (ofZ K)) hardCooldown) =
  ofZ K.
Proof.
  intros HK. unfold AnySetting.MAX_ATTEMPTS, AnySetting.Math_max.
  cbn [AnySetting.VERTEX_MAX_ATTEMPTS AnySetting.setting orDefault].
  assert (Hn : is_nan (ofZ K) = false).
  { rewrite is_nan_spec.
    destruct (ofZ_spec K) as (m & e & -> & _); [lia | reflexivity]. }
  rewrite Hn. change (is_nan 1) with false. cbn [orb].
  change 1%float with (ofZ 1). rewrite !ofZ_ltb by lia.
  destruct (Z.ltb_spec 1 K); [reflexivity |].
  destruct (Z.ltb_spec K 1); [lia |].
  replace K with 1 by lia. reflexivity.
Qed.

(** ** The busy gate under any setting *)

(** C7, as the code has it: a request that arrives while [isGenerating] is
    true is answered with 429 and [retryAfterMs = Math.max(0,
    HARD_COOLDOWN_MS - (now - lastSuccessAtMs))], computed on doubles; the
    state is left as it was and the model client is not called.  The hint is
    not negative whenever [VERTEX_HARD_COOLDOWN_MS] is unset or holds a
    number; the clock is then within 2^53 ms of [lastSuccessAtMs], as any
    two time values are. *)
Theorem busy_gate_rejects_in_doubles :
  forall penv st w rq,
    isGenerating st = true ->
    let retryAfterMs :=
      AnySetting.Math_max 0
        (AnySetting.HARD_COOLDOWN_MS penv - ofZ (now w - lastSuccessAtMs st))%float in
    AnySetting.step penv st (Arrived rq) w = (st, Done, [busyAnswer retryAfterMs]) /\
    (unparsed (AnySetting.VERTEX_HARD_COOLDOWN_MS penv) = false ->
     Z.abs (now w - lastSuccessAtMs st) < 2 ^ 53 ->
     (0 <=? retryAfterMs)%float = true).
Proof.
  intros penv st w rq Hg retryAfterMs. split.
  - cbn. unfold AnySetting.arrive. now rewrite Hg.
  - intros Hv Ht. apply Math_max_lower; try reflexivity.
    apply sub_not_nan.
    + unfold AnySetting.HARD_COOLDOWN_MS. now rewrite limit_nan.
    + now apply ofZ_finite.
Qed.

(** With [VERTEX_HARD_COOLDOWN_MS=abc] the hint is NaN, which is not at
    least 0; with [VERTEX_HARD_COOLDOWN_MS] at 2^60 and 2500 ms gone since
    the last success the hint is 2^60 - 2560, not 2^60 - 2500. *)
Lemma busy_hint_NaN_or_rounded :
  (AnySetting.step (AnySetting.setting None (Some nan)) busyState
     (Arrived (postPrompt "calm piano")) (clockAt 1700000002500) =
     (busyState, Done, [busyAnswer nan]) /\
   (0 <=? nan)%float = false) /\
  (AnySetting.step (AnySetting.setting None (Some 0x1p60%float)) busyState
     (Arrived (postPrompt "calm piano")) (clockAt 1700000002500) =
     (busyState, Done, [busyAnswer (SF2Prim (S754_finite false 9007199254740972 7))]) /\
   Z.max 0 (2 ^ 60 - (1700000002500 - 1700000000000)) = 2 ^ 60 - 2500 /\
   9007199254740972 * 2 ^ 7 = 2 ^ 60 - 2560).
Proof.
  repeat split; vm_compute; reflexivity.
Qed.

Lemma busy_gate_rejects_in_doubles_example :
  AnySetting.step (AnySetting.setting None None) busyState
    (Arrived (postPrompt "calm piano")) (clockAt 1700000002500) =
    (busyState, Done, [busyAnswer 4500]) /\
  (0 <=? 4500)%float = true.
Proof.
  pose proof (busy_gate_rejects_in_doubles (AnySetting.setting None None)
                busyState (clockAt 1700000002500) (postPrompt "calm piano")
                eq_refl) as [H1 H2].
  split.
  - exact H1.
  - apply H2; [reflexivity | vm_compute; reflexivity].
Defined.

(** ** The retry decision under any setting *)

Lemma errText_stringified (err : Thrown) : errText err = stringified err.
Proof.
  destruct err as [name [|c message] | s]; try reflexivity.
  cbn. now destruct name.
Qed.

(** C2, as the code has it: with [MAX_ATTEMPTS] a whole number, a rejected
    call is retried exactly when the text of the error (its message; for
    an error with an empty message its name; for a thrown string the
    string) carries one of the five signatures and the attempt is not the
    last one: the request then sleeps and the next segment calls the model
    client again; otherwise the error is answered at once and nothing more
    is dispatched.  An error that contains ["401"] and no signature fails
    the request on attempt 1 even when three attempts are allowed. *)
Theorem retried_iff_signature_and_not_last_of_whole :
  forall penv st promptText modelName K attempt t r err,
    AnySetting.MAX_ATTEMPTS penv = ofZ K -> K < 2 ^ 53 -> 1 <= attempt <= K ->
    let w := {| now := t; outcome := Rejected err; random := r |} in
    let here := AwaitModel promptText modelName attempt in
    (hasRetrySignature (stringified err) /\ attempt <> K ->
       AnySetting.step penv st here w =
         (st, Backoff promptText modelName attempt err,
          [AnySetting.Sleep (AnySetting.backoffDelay penv attempt r)]) /\
       forall st' w',
         AnySetting.step penv st' (Backoff promptText modelName attempt err) w' =
           (st', AwaitModel promptText modelName (attempt + 1),
            [AnySetting.Dispatch modelName (requestText promptText)])) /\
    (~ (hasRetrySignature (stringified err) /\ attempt <> K) ->
       AnySetting.step penv st here w =
         (setGenerating false st, Done, [failed (stringified err)])) /\
    (occursIn (lit "401") (stringified err) ->
     ~ hasRetrySignature (stringified err) ->
     K = 3 -> attempt = 1 ->
     AnySetting.step penv st here w =
       (setGenerating false st, Done, [failed (stringified err)])).
Proof.
  intros penv st promptText modelName K attempt t r err HK HK53 Ha w here.
  assert (Hthrow : shouldRetry err = false \/ attempt = K ->
            AnySetting.step penv st here w =
              (setGenerating false st, Done, [failed (stringified err)])).
  { intros H. cbn. unfold AnySetting.catchAttempt, AnySetting.handlerCatch,
      AnySetting.failure, failed. rewrite errText_stringified.
    destruct H as [-> | ->]; [reflexivity |].
    rewrite HK, ofZ_eqb, Z.eqb_refl, orb_true_r by lia. reflexivity. }
  assert (Hiff : shouldRetry err = true <-> hasRetrySignature (stringified err))
    by (rewrite <- errText_stringified; apply shouldRetry_signature).
  split; [| split].
  - intros [Hsig Hlast]. apply Hiff in Hsig. split.
    + cbn. unfold AnySetting.catchAttempt. rewrite Hsig, HK, ofZ_eqb by lia.
      apply Z.eqb_neq in Hlast. now rewrite Hlast.
    + intros st' w'. cbn. unfold AnySetting.enterAttempt.
      rewrite HK, ofZ_leb by lia.
      assert (E : (attempt + 1 <=? K) = true) by (apply Z.leb_le; lia).
      now rewrite E.
  - intros H. apply Hthrow.
    destruct (shouldRetry err) eqn:Hs; [| now left].
    right. assert (Hsig : hasRetrySignature (stringified err)) by now apply Hiff.
    destruct (Z.eq_dec attempt K); [assumption | tauto].
  - intros _ Hno _ _. apply Hthrow. left.
    destruct (shouldRetry err) eqn:Hs; [| reflexivity].
    exfalso. apply Hno. now apply Hiff.
Qed.

(** With [VERTEX_MAX_ATTEMPTS=2.5] the second attempt is the last one the
    loop makes.  A rejection of it that carries a signature is followed by
    the backoff sleep all the same, and only the segment after the sleep
    throws it, from line 119: the error does not propagate at once. *)
Lemma fractional_budget_sleeps_after_last_attempt :
  let penv := AnySetting.setting (Some 2.5%float) None in
  let st := setGenerating true initialState in
  let err := newError "429 Too Many Requests" in
  AnySetting.MAX_ATTEMPTS penv = 2.5%float /\
  AnySetting.step penv st
    (AwaitModel (lit "calm piano") (lit "lyria-002") 2)
    (rejectedAt 1700000000000 err) =
    (st, Backoff (lit "calm piano") (lit "lyria-002") 2 err,
     [AnySetting.Sleep 2400]) /\
  AnySetting.step penv st
    (Backoff (lit "calm piano") (lit "lyria-002") 2 err)
    (clockAt 1700000002400) =
    (initialState, Done, [failed (lit "429 Too Many Requests")]).
Proof.
  repeat split; vm_compute; reflexivity.
Qed.

Lemma retried_iff_signature_and_not_last_of_whole_example :
  let penv := AnySetting.setting (Some 3%float) None in
  let st := setGenerating true initialState in
  (AnySetting.step penv st
     (AwaitModel (lit "calm piano") (lit "lyria-002") 1)
     (rejectedAt 1700000000000 (newError "429 Too Many Requests")) =
     (st, Backoff (lit "calm piano") (lit "lyria-002") 1
            (newError "429 Too Many Requests"),
      [AnySetting.Sleep 1200]) /\
   AnySetting.step penv st
     (Backoff (lit "calm piano") (lit "lyria-002") 1
        (newError "429 Too Many Requests"))
     (clockAt 1700000001200) =
     (st, AwaitModel (lit "calm piano") (lit "lyria-002") 2,
      [AnySetting.Dispatch (lit "lyria-002") (requestText (lit "calm piano"))])) /\
  AnySetting.step penv st
    (AwaitModel (lit "calm piano") (lit "lyria-002") 3)
    (rejectedAt 1700000000000 (newError "429 Too Many Requests")) =
    (initialState, Done, [failed (lit "429 Too Many Requests")]) /\
  AnySetting.step penv st
    (AwaitModel (lit "calm piano") (lit "lyria-002") 1)
    (rejectedAt 1700000000000 (newError "401 Unauthorized")) =
    (initialState, Done, [failed (lit "401 Unauthorized")]).
Proof.
  intros penv st.
  assert (H429 : hasRetrySignature
                   (stringified (newError "429 Too Many Requests"))).
  { exists (lit "429"). split; [now left |].
    now exists [], (lit " Too Many Requests"). }
  assert (H401 : ~ hasRetrySignature
                     (stringified (newError "401 Unauthorized"))).
  { rewrite <- errText_stringified. intros H.
    apply shouldRetry_signature in H. discriminate H. }
  split; [| split].
  - destruct (retried_iff_signature_and_not_last_of_whole penv st
                (lit "calm piano") (lit "lyria-002") 3 1 1700000000000
                0.5%float (newError "429 Too Many Requests")
                eq_refl eq_refl ltac:(lia)) as [Hretry _].
    destruct Hretry as [H1 H2]; [split; [exact H429 | lia] |].
    split; [exact H1 | apply H2].
  - apply (proj1 (proj2 (retried_iff_signature_and_not_last_of_whole penv st
             (lit "calm piano") (lit "lyria-002") 3 3 1700000000000
             0.5%float (newError "429 Too Many Requests")
             eq_refl eq_refl ltac:(lia)))).
    intros [_ H]. now apply H.
  - apply (proj2 (proj2 (retried_iff_signature_and_not_last_of_whole penv st
             (lit "calm piano") (lit "lyria-002") 3 1 1700000000000
             0.5%float (newError "401 Unauthorized")
             eq_refl eq_refl ltac:(lia)))); try reflexivity; try assumption.
    now exists [], (lit " Unauthorized").
Defined.

(** ** The throw after the loop *)

(** X9: line 119 throws [UNKNOWN_ERROR] on the first pass exactly when
    [VERTEX_MAX_ATTEMPTS] holds no number: [MAX_ATTEMPTS] is then NaN, the
    loop body never runs, and the head of the loop answers 500 with the
    detail [UNKNOWN_ERROR], the flag released and the model client not
    called.  Under every other setting the first pass makes the first
    call.  The segment that follows the pacing wait is such a first
    pass. *)
Theorem first_call_unless_budget_unparsed :
  forall penv st promptText modelName,
    let firstPass :=
      if unparsed (AnySetting.VERTEX_MAX_ATTEMPTS penv) then
        (setGenerating false st, Done, [failed (lit "UNKNOWN_ERROR")])
      else
        (st, AwaitModel promptText modelName 1,
         [AnySetting.Dispatch modelName (requestText promptText)]) in
    AnySetting.enterAttempt penv st promptText modelName 1 None = firstPass /\
    forall w, AnySetting.step penv st (Pacing promptText modelName) w = firstPass.
Proof.
  intros penv st promptText modelName firstPass.
  assert (E : (1 <=? AnySetting.MAX_ATTEMPTS penv)%float =
              negb (unparsed (AnySetting.VERTEX_MAX_ATTEMPTS penv))).
  { pose proof (limit_nan 1 1 (AnySetting.VERTEX_MAX_ATTEMPTS penv)
                  eq_refl eq_refl) as Hn.
    fold (AnySetting.MAX_ATTEMPTS penv) in Hn.
    destruct (unparsed (AnySetting.VERTEX_MAX_ATTEMPTS penv)) eqn:Hu;
      cbn [negb].
    - rewrite leb_spec. rewrite is_nan_spec in Hn.
      destruct (Prim2SF (AnySetting.MAX_ATTEMPTS penv)); try discriminate.
      reflexivity.
    - unfold AnySetting.MAX_ATTEMPTS. apply Math_max_lower; try reflexivity.
      destruct (AnySetting.VERTEX_MAX_ATTEMPTS penv); [exact Hu | reflexivity]. }
  assert (H : AnySetting.enterAttempt penv st promptText modelName 1 None =
              firstPass).
  { unfold AnySetting.enterAttempt, firstPass. change (ofZ 1) with 1%float.
    rewrite E. now destruct (unparsed _). }
  split; [exact H | intros w; exact H].
Qed.

(** ** Whole settings *)

(** X18: where [MAX_ATTEMPTS] and [BASE_DELAY_MS] are whole numbers, the
    retry loop over doubles is the retry loop of [Section Gateway]: the
    segment after the pacing wait, the segment that settles a call and the
    segment after a backoff sleep leave the same state, the same next phase
    and the same effects. *)
Theorem retry_loop_agrees_at_whole_settings :
  forall penv env st ph w,
    wholeSetting penv env ->
    isArrived ph = false ->
    attemptInRange penv ph ->
    AnySetting.step env st ph w =
      (fst (fst (step penv st ph w)), snd (fst (step penv st ph w)),
       List.map asDoubles (snd (step penv st ph w))).
Proof.
  intros penv env st ph w (HM & HK & HB) Hph Hr.
  pose proof (MAX_ATTEMPTS_pos penv) as Hpos.
  assert (Hdelay : forall a r, AnySetting.backoffDelay env a r = backoffDelay penv a r)
    by (intros a r; unfold AnySetting.backoffDelay, backoffDelay, jitter;
        now rewrite HB).
  assert (Hcatch : forall st0 p m a r err,
            1 <= a <= MAX_ATTEMPTS penv ->
            AnySetting.catchAttempt env st0 p m a r err =
              (fst (fst (catchAttempt penv st0 p m a r err)),
               snd (fst (catchAttempt penv st0 p m a r err)),
               List.map asDoubles (snd (catchAttempt penv st0 p m a r err)))).
  { intros st0 p m a r err Ha.
    unfold AnySetting.catchAttempt, catchAttempt.
    rewrite HM, ofZ_eqb, Hdelay by lia.
    now destruct (negb (shouldRetry err) || (a =? MAX_ATTEMPTS penv)). }
  destruct ph as [rq | p m | p m a | p m a e |]; cbn [step AnySetting.step];
    try discriminate.
  - unfold AnySetting.enterAttempt, enterAttempt.
    rewrite HM, ofZ_leb by lia. now destruct (1 <=? MAX_ATTEMPTS penv).
  - cbn [attemptInRange] in Hr. unfold AnySetting.settle, settle.
    destruct (outcome w) as [resp | err]; [| now apply Hcatch].
    destruct (scanParts (responseParts resp)); [reflexivity | now apply Hcatch].
  - cbn [attemptInRange] in Hr. unfold AnySetting.enterAttempt, enterAttempt.
    rewrite HM, ofZ_leb by lia. now destruct (a + 1 <=? MAX_ATTEMPTS penv).
  - reflexivity.
Qed.

Lemma retry_loop_agrees_at_whole_settings_example :
  AnySetting.step (AnySetting.setting (Some 3%float) None)
    (setGenerating true initialState)
    (AwaitModel (lit "calm piano") (lit "lyria-002") 1)
    (rejectedAt 1700000000000 (newError "429 Too Many Requests")) =
  (setGenerating true initialState,
   Backoff (lit "calm piano") (lit "lyria-002") 1
     (newError "429 Too Many Requests"),
   [AnySetting.Sleep 1200]).
Proof.
  apply (retry_loop_agrees_at_whole_settings threeAttemptsEnv
           (AnySetting.setting (Some 3%float) None)
           (setGenerating true initialState)
           (AwaitModel (lit "calm piano") (lit "lyria-002") 1)
           (rejectedAt 1700000000000 (newError "429 Too Many Requests"))).
  - repeat split.
  - reflexivity.
  - cbn. lia.
Defined.
